(** * The derived-table operator of the query planner

    A shallow embedding of [operators.Derived] (planbuilder/operators) and of
    the few collaborators its methods call, followed by the properties of
    column resolution, column push-down, predicate push-down, cloning and the
    query-projection cache. *)

From Stdlib Require Import ZArith Lia Ascii String.
From stdpp Require Import base option list numbers strings gmap.

Set Warnings "-register-all".

Local Open Scope Z_scope.

(** ** Go-level conventions

    A Go function returning [(v, error)] is embedded as a pair whose second
    component is [None] for a [nil] error.  A run-time panic (index out of
    range, failed single-value type assertion, call through a nil interface)
    is the [Panics] outcome. *)

Inductive Outcome (A : Type) : Type :=
  | Returns (a : A)
  | Panics (reason : string).
Arguments Returns {A} a.
Arguments Panics {A} reason.

(** ** sqlparser: the part of the syntax tree the operator inspects *)

Module sqlparser.

(** Modelled from the spec: the identifier type is declared in package
    sqlparser, outside the operators package.  [IdentifierCI] is a case-insensitive SQL
    identifier: [Equal] compares the lowered spellings (ASCII letters),
    [IsEmpty] tests the raw spelling. *)
Record IdentifierCI : Type := NewIdentifierCI { val : string }.

Definition lower_ascii (c : ascii) : ascii :=
  let n := nat_of_ascii c in
  if ((65 <=? n)%nat && (n <=? 90)%nat)%bool then ascii_of_nat (n + 32) else c.

Fixpoint ToLower (s : string) : string :=
  match s with
  | EmptyString => EmptyString
  | String c rest => String (lower_ascii c) (ToLower rest)
  end.

Definition Lowered (i : IdentifierCI) : string := ToLower (val i).
Definition IsEmpty (i : IdentifierCI) : bool := String.eqb (val i) "".
Definition Equal (a b : IdentifierCI) : bool := String.eqb (Lowered a) (Lowered b).
Definition IdentString (i : IdentifierCI) : string := val i.

(** [ColName]: a column reference, optionally qualified by a table name. *)
Record ColName : Type := mkColName { Qualifier : string; Name : IdentifierCI }.

Definition NewColName (s : string) : ColName :=
  {| Qualifier := ""; Name := NewIdentifierCI s |}.

(** The dynamic type of a syntax-tree node, as far as the type switches of
    this package tell nodes apart: [*Max], [*Min], any other implementation
    of the [AggrFunc] interface, and every remaining node type. *)
Inductive NodeType : Type :=
  | Max
  | Min
  | OtherAggrFunc (name : string)
  | NonAggr (name : string).

(** Expressions: a bare column reference, or a node with its sub-nodes in
    the order the generated visitor descends into them. *)
Inductive Expr : Type :=
  | ColNameExpr (c : ColName)
  | Node (ty : NodeType) (children : list Expr).

Record AliasedExpr : Type := mkAliasedExpr { ae_Expr : Expr; As : IdentifierCI }.

(** [aeWrap] of the operators package: an alias-less select item. *)
Definition aeWrap (e : Expr) : AliasedExpr :=
  {| ae_Expr := e; As := NewIdentifierCI "" |}.

Inductive SelectExpr : Type :=
  | IsAliasedExpr (exp : AliasedExpr)
  | StarExpr
  | Nextval (e : Expr).

Inductive SelectStatement : Type :=
  | Select (SelectExprs : list SelectExpr)
  | Union (Left Right : SelectStatement).

(** Modelled from the spec: the parser's helper that obtains the first select
    of a possibly compound statement; the result is its select list. *)
Fixpoint GetFirstSelect (stmt : SelectStatement) : list SelectExpr :=
  match stmt with
  | Select exprs => exprs
  | Union l _ => GetFirstSelect l
  end.

(** Modelled from the spec: the tree walk is defined in package sqlparser,
    outside the operators package.  [f] is called on a node before its sub-nodes; an error aborts
    the whole walk, [kontinue = false] skips the sub-nodes.  The variables a
    Go closure captures are the state [S] threaded through. *)
Definition Visit (S : Type) : Type := Expr -> S -> S * (bool * option string).

Fixpoint VisitExpr {S : Type} (f : Visit S) (node : Expr) (s : S) : S * option string :=
  let '(s1, (kontinue, err)) := f node s in
  match err with
  | Some e => (s1, Some e)
  | None =>
      if negb kontinue then (s1, None)
      else
        match node with
        | ColNameExpr _ => (s1, None)
        | Node _ children =>
            (fix visitAll (l : list Expr) (s : S) : S * option string :=
               match l with
               | [] => (s, None)
               | c :: rest =>
                   match VisitExpr f c s with
                   | (s', Some e) => (s', Some e)
                   | (s', None) => visitAll rest s'
                   end
               end) children s1
        end
  end.

Definition Walk {S : Type} (visit : Visit S) (node : Expr) (s : S) : S * option string :=
  VisitExpr visit node s.

End sqlparser.

(** ** vterrors: the error values the operator builds *)

Module vterrors.

Inductive Error : Type :=
  | VT03014 (column place : string)
  | VT12001 (feature : string) (culprit : sqlparser.AliasedExpr)
  | VT13001 (msg : string)
  | ErrNotSingleTable
  | Foreign (code : nat).

Inductive ErrorKind : Type :=
  | UnsupportedFeature
  | UnknownColumn
  | InternalInvariant
  | Unclassified.

(** Modelled from the spec: the table of error codes lives in the vterrors
    package; the three kinds and which constructor belongs to which follow
    the error-handling section of the specification. *)
Definition kind (e : Error) : ErrorKind :=
  match e with
  | VT12001 _ _ => UnsupportedFeature
  | VT03014 _ _ => UnknownColumn
  | VT13001 _ => InternalInvariant
  | ErrNotSingleTable | Foreign _ => Unclassified
  end.

Definition userFacing (k : ErrorKind) : bool :=
  match k with
  | UnsupportedFeature | UnknownColumn => true
  | InternalInvariant | Unclassified => false
  end.

(** [err == semantics.ErrNotSingleTable] *)
Definition is_ErrNotSingleTable (e : Error) : bool :=
  match e with
  | ErrNotSingleTable => true
  | _ => false
  end.

End vterrors.

Import sqlparser vterrors.

(** ** semantics, plancontext: the oracle handed to every method *)

Module semantics.

Definition TableSet : Type := N.

Inductive TableInfo : Type := TableInfoRef (id : nat).

Record SemTable : Type := {
  EqualsExprWithDeps : Expr -> Expr -> bool;
  TableInfoForExpr : Expr -> option TableInfo * option Error
}.

End semantics.

Module plancontext.

Record PlanningContext : Type := { SemTable : semantics.SemTable }.

End plancontext.

Import semantics plancontext.

(** ** operators: the node types *)

Module operators.

(** [ops.OrderBy] and the part of [QueryProjection] the node reads. *)
Record OrderBy : Type := { Inner : Expr; Descending : bool; WeightStrExpr : Expr }.

Record QueryProjection : Type := {
  SelectExprs : list SelectExpr;
  OrderExprs : list OrderBy
}.

(** The fields of [Derived], over the type of operators its [Source] holds.
    An interface or pointer field that may be nil is an [option]. *)
Record DerivedOf (Op : Type) : Type := mkDerived {
  Source : option Op;
  TableId : TableSet;
  QP : option QueryProjection;
  Query : SelectStatement;
  Alias : string;
  ColumnAliases : list IdentifierCI;
  Columns : list ColName;
  ColumnsOffset : list Z
}.
Arguments mkDerived {Op}.
Arguments Source {Op}.
Arguments TableId {Op}.
Arguments QP {Op}.
Arguments Query {Op}.
Arguments Alias {Op}.
Arguments ColumnAliases {Op}.
Arguments Columns {Op}.
Arguments ColumnsOffset {Op}.

(** [ops.Operator]: the variants this file names ([*Derived], [*Filter],
    [*Union]) and, behind a handle, every other implementation. *)
Inductive Operator : Type :=
  | DerivedOp (d : DerivedOf Operator)
  | FilterOp (Source : Operator) (Predicates : list Expr)
  | UnionOp (Sources : list Operator)
  | OtherOp (handle : nat).

Definition Derived : Type := DerivedOf Operator.

Definition withSource (d : Derived) (src : option Operator) : Derived :=
  mkDerived src (TableId d) (QP d) (Query d) (Alias d) (ColumnAliases d)
            (Columns d) (ColumnsOffset d).

Definition withQP (d : Derived) (qp : option QueryProjection) : Derived :=
  mkDerived (Source d) (TableId d) qp (Query d) (Alias d) (ColumnAliases d)
            (Columns d) (ColumnsOffset d).

Definition withColumns (d : Derived) (cols : list ColName) : Derived :=
  mkDerived (Source d) (TableId d) (QP d) (Query d) (Alias d) (ColumnAliases d)
            cols (ColumnsOffset d).

Definition withColumnsOffset (d : Derived) (offs : list Z) : Derived :=
  mkDerived (Source d) (TableId d) (QP d) (Query d) (Alias d) (ColumnAliases d)
            (Columns d) offs.

(** What the node calls but does not define: the methods of whatever operator
    sits in [Source] (dynamic dispatch), and three package-level functions.
    [Source_AddColumn] also yields the receiver as the call left it, which is
    what [Source] still points to when the call fails. *)
Class Collaborators : Type := {
  Source_AddPredicate :
    PlanningContext -> Operator -> Expr -> option Operator * option Error;
  Source_AddColumn :
    PlanningContext -> Operator -> AliasedExpr -> bool -> bool ->
    Operator * (option Operator * Z * option Error);
  RewriteDerivedTableExpression : Expr -> option TableInfo -> Expr;
  CreateQPFromSelect :
    PlanningContext -> list SelectExpr -> option QueryProjection * option Error
}.

(** *** Clone *)

(** [slices.Clone] on values: the same elements in the same order.  What it
    does to backing arrays is the subject of the [memory] module below. *)
Definition slices_Clone {A : Type} (s : list A) : list A := s.

(** Modelled from the spec: [sqlparser.CloneColumns] is defined outside the
    operators package; it yields a list of copies of the identifiers. *)
Definition CloneColumns (n : list IdentifierCI) : list IdentifierCI :=
  map (fun x => NewIdentifierCI (val x)) n.

Definition Clone (d : Derived) (inputs : list (option Operator)) : Outcome Derived :=
  match inputs with
  | [] => Panics "index out of range [0] with length 0"
  | in0 :: _ =>
      Returns {| Source := in0;
                 Query := Query d;
                 Alias := Alias d;
                 ColumnAliases := CloneColumns (ColumnAliases d);
                 Columns := slices_Clone (Columns d);
                 ColumnsOffset := slices_Clone (ColumnsOffset d);
                 TableId := TableId d;
                 QP := None |}
  end.

(** *** findOutputColumn *)

Fixpoint findOutputColumn_loop (name : ColName) (exprs : list SelectExpr)
    (j : Z) (hasStar : bool) : Z * option Error :=
  match exprs with
  | [] =>
      if hasStar then (-1, None)
      else (0, Some (VT03014 (IdentString (Name name)) "field list"))
  | IsAliasedExpr exp :: rest =>
      if negb (IsEmpty (As exp)) && Equal (As exp) (Name name) then (j, None)
      else if IsEmpty (As exp) then
        match ae_Expr exp with
        | ColNameExpr col =>
            if Equal (Name name) (Name col) then (j, None)
            else findOutputColumn_loop name rest (j + 1) hasStar
        | Node _ _ =>
            (0, Some (VT12001 "complex expression needs column alias: %s" exp))
        end
      else findOutputColumn_loop name rest (j + 1) hasStar
  | StarExpr :: rest => findOutputColumn_loop name rest (j + 1) true
  | Nextval _ :: rest => findOutputColumn_loop name rest (j + 1) hasStar
  end.

Definition findOutputColumn (d : Derived) (name : ColName) : Z * option Error :=
  findOutputColumn_loop name (GetFirstSelect (Query d)) 0 false.

(** *** Inputs, SetInputs *)

Definition Inputs (d : Derived) : list (option Operator) := [Source d].

Definition SetInputs (d : Derived) (ops : list (option Operator)) : Outcome Derived :=
  match ops with
  | [] => Panics "index out of range [0] with length 0"
  | o :: _ => Returns (withSource d o)
  end.

(** *** AddPredicate *)

(** The closure handed to [sqlparser.Walk]; its captured result variable
    [canBePushed] is the state. *)
Definition pushdownVisitor : Visit bool :=
  fun node canBePushed =>
    match node with
    | Node Max _ | Node Min _ => (canBePushed, (true, None))
    | Node (OtherAggrFunc _) _ => (false, (false, Some "EOF"%string))
    | _ => (canBePushed, (true, None))
    end.

Definition canBePushedDownIntoDerived (expr : Expr) : bool :=
  fst (Walk pushdownVisitor expr true).

Definition isUnion (src : option Operator) : bool :=
  match src with
  | Some (UnionOp _) => true
  | _ => false
  end.

(** The result is the receiver as the call leaves it, then Go's two results.
    A returned [d] is [DerivedOp] of that receiver. *)
Definition AddPredicate `{Collaborators} (ctx : PlanningContext) (d : Derived)
    (expr : Expr) : Outcome (Derived * (option Operator * option Error)) :=
  if isUnion (Source d) then
    match Source d with
    | None => Panics "nil pointer dereference"
    | Some src =>
        let '(newSrc, err) := Source_AddPredicate ctx src expr in
        let d' := withSource d newSrc in
        Returns (d', (Some (DerivedOp d'), err))
    end
  else
    let '(tableInfo, err) := TableInfoForExpr (SemTable ctx) expr in
    match err with
    | Some e =>
        if is_ErrNotSingleTable e
        then Returns (d, (Some (FilterOp (DerivedOp d) [expr]), None))
        else Returns (d, (None, Some e))
    | None =>
        let newExpr := RewriteDerivedTableExpression expr tableInfo in
        if negb (canBePushedDownIntoDerived newExpr)
        then Returns (d, (Some (FilterOp (DerivedOp d) [expr]), None))
        else
          match Source d with
          | None => Panics "nil pointer dereference"
          | Some src =>
              let '(newSrc, err) := Source_AddPredicate ctx src newExpr in
              let d' := withSource d newSrc in
              match err with
              | Some e => Returns (d', (None, Some e))
              | None => Returns (d', (Some (DerivedOp d'), None))
              end
          end
    end.

(** *** AddColumn *)

Fixpoint canReuseColumn_loop {T : Type} (ctx : PlanningContext) (columns : list T)
    (col : Expr) (f : T -> Expr) (offset : Z) : Z * bool :=
  match columns with
  | [] => (0, false)
  | column :: rest =>
      if EqualsExprWithDeps (SemTable ctx) col (f column) then (offset, true)
      else canReuseColumn_loop ctx rest col f (offset + 1)
  end.

Definition canReuseColumn {T : Type} (ctx : PlanningContext) (columns : list T)
    (col : Expr) (f : T -> Expr) : Z * bool :=
  canReuseColumn_loop ctx columns col f 0.

Fixpoint addToIntSlice_loop (columnOffset : list Z) (valToAdd : Z) (idx : Z) : option Z :=
  match columnOffset with
  | [] => None
  | val :: rest =>
      if val =? valToAdd then Some idx
      else addToIntSlice_loop rest valToAdd (idx + 1)
  end.

Definition addToIntSlice (columnOffset : list Z) (valToAdd : Z) : list Z * Z :=
  match addToIntSlice_loop columnOffset valToAdd 0 with
  | Some idx => (columnOffset, idx)
  | None =>
      let columnOffset := columnOffset ++ [valToAdd] in
      (columnOffset, Z.of_nat (length columnOffset) - 1)
  end.

Definition AddColumn `{Collaborators} (ctx : PlanningContext) (d : Derived)
    (expr : AliasedExpr) (reuse addToGroupBy : bool)
    : Outcome (Derived * (option Operator * Z * option Error)) :=
  match ae_Expr expr with
  | Node _ _ =>
      Returns (d, (None, 0,
                   Some (VT13001 "cannot push non-colname expression to a derived table")))
  | ColNameExpr col =>
      let identity := fun c : ColName => ColNameExpr c in
      match canReuseColumn ctx (Columns d) (ColNameExpr col) identity with
      | (offset, true) => Returns (d, (Some (DerivedOp d), offset, None))
      | (_, false) =>
          match findOutputColumn d col with
          | (_, Some err) => Returns (d, (None, 0, Some err))
          | (i, None) =>
              let '(offs, pos) := addToIntSlice (ColumnsOffset d) i in
              let d := withColumnsOffset d offs in
              let d := withColumns d (Columns d ++ [col]) in
              if i <=? -1 then
                match Source d with
                | None => Panics "nil pointer dereference"
                | Some src =>
                    let '(src', (newSrc, _, err)) :=
                      Source_AddColumn ctx src
                        (aeWrap (ColNameExpr (NewColName (IdentString (Name col)))))
                        true addToGroupBy in
                    match err with
                    | Some e => Returns (withSource d (Some src'), (None, 0, Some e))
                    | None =>
                        let d := withSource d newSrc in
                        Returns (d, (Some (DerivedOp d), pos, None))
                    end
                end
              else Returns (d, (Some (DerivedOp d), pos, None))
          end
      end
  end.

(** *** GetColumns, GetOrdering, the query-projection cache *)

(** [errHorizonNotPlanned] is defined elsewhere in the package; the error it
    yields is the first argument.  The named result [exprs] is the
    accumulator of the loop; a nil slice is the empty list. *)
Fixpoint GetColumns_loop (errHorizonNotPlanned : Error)
    (selectExprs : list SelectExpr) (exprs : list AliasedExpr)
    : list AliasedExpr * option Error :=
  match selectExprs with
  | [] => (exprs, None)
  | IsAliasedExpr ae :: rest =>
      GetColumns_loop errHorizonNotPlanned rest (exprs ++ [ae])
  | _ :: _ => ([], Some errHorizonNotPlanned)
  end.

Definition GetColumns (errHorizonNotPlanned : Error) (d : Derived)
    : list AliasedExpr * option Error :=
  GetColumns_loop errHorizonNotPlanned (GetFirstSelect (Query d)) [].

Definition GetOrdering (d : Derived)
    : Derived * (option (list OrderBy) * option Error) :=
  match QP d with
  | None => (d, (None, Some (VT13001 "QP should already be here")))
  | Some qp => (d, (Some (OrderExprs qp), None))
  end.

Definition getQP `{Collaborators} (ctx : PlanningContext) (d : Derived)
    : Outcome (Derived * (option QueryProjection * option Error)) :=
  match QP d with
  | Some qp => Returns (d, (Some qp, None))
  | None =>
      match Query d with
      | Union _ _ =>
          Panics "interface conversion: SelectStatement is *Union, not *Select"
      | Select sel =>
          let '(qp, err) := CreateQPFromSelect ctx sel in
          match err with
          | Some e => Returns (d, (None, Some e))
          | None => let d := withQP d qp in Returns (d, (QP d, None))
          end
      end
  end.

Definition setQP (d : Derived) (qp : option QueryProjection) : Derived := withQP d qp.

Definition ShortDescription (d : Derived) : string := Alias d.

End operators.

Import operators.

(** ** Vocabulary of the statements about column resolution *)

(** A select item answers to [name]: it carries that alias, or it carries no
    alias and is the bare column of that name. *)
Definition matches (name : ColName) (item : SelectExpr) : bool :=
  match item with
  | IsAliasedExpr exp =>
      if IsEmpty (As exp) then
        match ae_Expr exp with
        | ColNameExpr col => Equal (Name name) (Name col)
        | Node _ _ => false
        end
      else Equal (As exp) (Name name)
  | _ => false
  end.

(** A select item without alias whose expression is not a bare column. *)
Definition needsAlias (item : SelectExpr) : bool :=
  match item with
  | IsAliasedExpr exp =>
      IsEmpty (As exp) &&
      match ae_Expr exp with ColNameExpr _ => false | Node _ _ => true end
  | _ => false
  end.

Definition isStar (item : SelectExpr) : bool :=
  match item with StarExpr => true | _ => false end.

(** An item the scan walks past: no match, no error. *)
Definition passed (name : ColName) (item : SelectExpr) : Prop :=
  matches name item = false ∧ needsAlias item = false.


(** An aggregate other than [Max] and [Min] occurs somewhere in the tree. *)
Fixpoint containsOtherAggr (e : Expr) : bool :=
  match e with
  | ColNameExpr _ => false
  | Node ty children =>
      match ty with OtherAggrFunc _ => true | _ => false end
      || existsb containsOtherAggr children
  end.

(** ** Concrete planning situations used to exercise the statements *)

Module fixtures.

(** Equality of bare columns by qualifier and name; nothing else is equal. *)
Definition sameColumn (a b : Expr) : bool :=
  match a, b with
  | ColNameExpr x, ColNameExpr y =>
      String.eqb (Qualifier x) (Qualifier y) && Equal (Name x) (Name y)
  | _, _ => false
  end.

Definition oneTable : PlanningContext :=
  {| SemTable := {| EqualsExprWithDeps := sameColumn;
                    TableInfoForExpr := fun _ => (Some (TableInfoRef 0), None) |} |}.

Definition manyTables : PlanningContext :=
  {| SemTable := {| EqualsExprWithDeps := sameColumn;
                    TableInfoForExpr := fun _ => (None, Some ErrNotSingleTable) |} |}.

(** A source that accepts every request: predicates are stacked in a filter,
    columns are reported at offset 0. *)
Definition accepting : Collaborators :=
  {| Source_AddPredicate := fun _ src e => (Some (FilterOp src [e]), None);
     Source_AddColumn := fun _ src _ _ _ => (src, (Some src, 0, None));
     RewriteDerivedTableExpression := fun e _ => e;
     CreateQPFromSelect := fun _ sel =>
       (Some {| SelectExprs := sel; OrderExprs := [] |}, None) |}.

Definition col (q n : string) : ColName :=
  {| Qualifier := q; Name := NewIdentifierCI n |}.

Definition item (e : Expr) (alias : string) : SelectExpr :=
  IsAliasedExpr {| ae_Expr := e; As := NewIdentifierCI alias |}.

Definition plus (a b : Expr) : Expr := Node (NonAggr "+") [a; b].
Definition gt (a b : Expr) : Expr := Node (NonAggr ">") [a; b].
Definition lit (s : string) : Expr := Node (NonAggr s) [].
Definition count (a : Expr) : Expr := Node (OtherAggrFunc "count") [a].
Definition max (a : Expr) : Expr := Node Max [a].

Definition projection (q : list SelectExpr) : QueryProjection :=
  {| SelectExprs := q;
     OrderExprs := [ {| Inner := ColNameExpr (col "" "a"); Descending := false;
                        WeightStrExpr := ColNameExpr (col "" "a") |} ] |}.

Definition derivedOver (q : SelectStatement) : Derived :=
  {| Source := Some (OtherOp 0); TableId := 1%N; QP := None; Query := q;
     Alias := "dt"; ColumnAliases := []; Columns := []; ColumnsOffset := [] |}.

Definition demanding (d : Derived) (cols : list ColName) (offs : list Z) : Derived :=
  withColumns (withColumnsOffset d offs) cols.

(** [SELECT a FROM t] *)
Definition selectA : SelectStatement :=
  Select [item (ColNameExpr (col "" "a")) ""].

(** [SELECT a, b FROM t] *)
Definition selectAB : SelectStatement :=
  Select [item (ColNameExpr (col "" "a")) ""; item (ColNameExpr (col "" "b")) ""].

(** [SELECT *, a + 1 FROM t] *)
Definition selectStarPlus : SelectStatement :=
  Select [StarExpr; item (plus (ColNameExpr (col "" "a")) (lit "1")) ""].

(** [SELECT *, sum(x) AS total FROM t] *)
Definition selectStarTotal : SelectStatement :=
  Select [StarExpr; item (Node (OtherAggrFunc "sum") [ColNameExpr (col "" "x")]) "total"].

(** [SELECT a + 1, a FROM t] *)
Definition selectPlusA : SelectStatement :=
  Select [item (plus (ColNameExpr (col "" "a")) (lit "1")) "";
          item (ColNameExpr (col "" "a")) ""].

(** A source that refuses every request. *)
Definition refusing : Collaborators :=
  {| Source_AddPredicate := fun _ _ _ => (None, Some (Foreign 1));
     Source_AddColumn := fun _ src _ _ _ => (src, (None, 0, Some (Foreign 2)));
     RewriteDerivedTableExpression := fun e _ => e;
     CreateQPFromSelect := fun _ _ => (None, Some (Foreign 3)) |}.

(** A context whose single-table attribution fails for another reason. *)
Definition brokenTables : PlanningContext :=
  {| SemTable := {| EqualsExprWithDeps := sameColumn;
                    TableInfoForExpr := fun _ => (None, Some (Foreign 9)) |} |}.

(** [SELECT * FROM t] *)
Definition selectStar : SelectStatement := Select [StarExpr].

(** [SELECT a AS x, b FROM t] *)
Definition selectAxB : SelectStatement :=
  Select [item (ColNameExpr (col "" "a")) "x"; item (ColNameExpr (col "" "b")) ""].

Definition overUnion (d : Derived) : Derived :=
  withSource d (Some (UnionOp [OtherOp 1; OtherOp 2])).

End fixtures.

(** ** Vocabulary of the statements about column push-down *)

(** No entry of [columns] is equal to [col] under the context's test. *)
Definition unseen (ctx : PlanningContext) (columns : list ColName) (col : ColName) : Prop :=
  Forall (λ c, EqualsExprWithDeps (SemTable ctx) (ColNameExpr col) (ColNameExpr c) = false)
         columns.

(** How many entries of an offset list equal [i]. *)
Definition occurrences (i : Z) (offsets : list Z) : nat :=
  length (filter (λ x, x = i) offsets).

(** One method call on a node: the receiver before and after. *)
Inductive step `{Collaborators} : Derived → Derived → Prop :=
  | step_AddColumn ctx d expr reuse addToGroupBy d' res :
      AddColumn ctx d expr reuse addToGroupBy = Returns (d', res) → step d d'
  | step_AddPredicate ctx d expr d' res :
      AddPredicate ctx d expr = Returns (d', res) → step d d'
  | step_Clone d inputs c :
      Clone d inputs = Returns c → step d c
  | step_SetInputs d ops d' :
      SetInputs d ops = Returns d' → step d d'
  | step_getQP ctx d d' res :
      getQP ctx d = Returns (d', res) → step d d'
  | step_setQP d qp :
      step d (setQP d qp)
  | step_GetOrdering d :
      step d (fst (GetOrdering d)).

(** ** memory: slices, backing arrays and pointers

    [Clone] once more, this time with what a value-level list hides: a slice
    is a window on a backing array that other slices may share, and the
    entries of [Columns] are pointers to [ColName] objects.  A heap is the
    list of the objects allocated so far; a location is an index into it. *)

Module memory.

(** Locations are indices into a heap. *)
Abbreviation loc := nat (only parsing).

Record slice : Type := mkSlice { array : option loc; len : nat; cap : nat }.

Section slices.
Context {A : Type} (zero : A).

(** The elements a slice shows. *)
Definition elements (h : list (list A)) (s : slice) : list A :=
  match array s with
  | None => []
  | Some l => take (len s) (default [] (h !! l))
  end.

Definition alloc (h : list (list A)) (arr : list A) : list (list A) * loc :=
  (h ++ [arr], length h).

(** The capacity of a grown array: at least what is needed.  The run-time's
    rounding to size classes is not modelled. *)
Definition growslice_cap (oldCap needed : nat) : nat := Nat.max needed (2 * oldCap).

(** [append(s, x)]: in place when capacity is left, into a new array
    otherwise. *)
Definition append (h : list (list A)) (s : slice) (x : A) : list (list A) * slice :=
  let grow :=
    let newCap := growslice_cap (cap s) (S (len s)) in
    let '(h', l') :=
      alloc h (elements h s ++ [x] ++ replicate (newCap - S (len s)) zero) in
    (h', {| array := Some l'; len := S (len s); cap := newCap |}) in
  match array s with
  | Some l =>
      if decide (len s < cap s)%nat
      then (alter (λ arr, <[len s := x]> arr) l h,
            {| array := Some l; len := S (len s); cap := cap s |})
      else grow
  | None => grow
  end.

(** [s[i] = x] *)
Definition assign (h : list (list A)) (s : slice) (i : nat) (x : A)
    : Outcome (list (list A)) :=
  match array s with
  | Some l =>
      if decide (i < len s)%nat
      then Returns (alter (λ arr, <[i := x]> arr) l h)
      else Panics "index out of range"
  | None => Panics "index out of range"
  end.

(** [slices.Clone(s)], that is [append(S([]E{}), s...)]: nil stays nil,
    anything else is copied, element by element, into a new array. *)
Definition slices_Clone (h : list (list A)) (s : slice) : list (list A) * slice :=
  match array s with
  | None => (h, s)
  | Some _ =>
      let '(h', l') := alloc h (elements h s) in
      (h', {| array := Some l'; len := len s; cap := len s |})
  end.

(** The slice points into the heap and stays within its array. *)
Definition valid (h : list (list A)) (s : slice) : Prop :=
  match array s with
  | None => len s = 0%nat ∧ cap s = 0%nat
  | Some l => ∃ arr, h !! l = Some arr ∧ length arr = cap s ∧ (len s ≤ cap s)%nat
  end.

End slices.

(** Two slices on different backing arrays (a nil slice has none). *)
Definition apart (s1 s2 : slice) : Prop :=
  match array s1, array s2 with
  | Some l1, Some l2 => l1 ≠ l2
  | _, _ => True
  end.

Record Store : Type := mkStore {
  colNames : list ColName;
  ptrArrays : list (list (option loc));
  intArrays : list (list Z);
  identArrays : list (list IdentifierCI)
}.

Record Derived : Type := mkDerived {
  Source : option Operator;
  TableId : TableSet;
  QP : option QueryProjection;
  Query : SelectStatement;
  Alias : string;
  ColumnAliases : slice;
  Columns : slice;
  ColumnsOffset : slice
}.

(** Modelled from the spec: [sqlparser.CloneColumns] is defined outside the
    operators package; the clone's aliases are independently mutable, so nil
    stays nil and anything else is copied, identifier by identifier, into a
    new array. *)
Definition CloneColumns (h : list (list IdentifierCI)) (n : slice)
    : list (list IdentifierCI) * slice :=
  match array n with
  | None => (h, n)
  | Some _ =>
      let '(h', l') :=
        alloc h (map (λ x, NewIdentifierCI (val x)) (elements h n)) in
      (h', {| array := Some l'; len := len n; cap := len n |})
  end.

Definition Clone (st : Store) (d : Derived) (inputs : list (option Operator))
    : Outcome (Store * Derived) :=
  match inputs with
  | [] => Panics "index out of range [0] with length 0"
  | in0 :: _ =>
      let '(idents, aliases) := CloneColumns (identArrays st) (ColumnAliases d) in
      let '(ptrs, columns) := slices_Clone (ptrArrays st) (Columns d) in
      let '(ints, offsets) := slices_Clone (intArrays st) (ColumnsOffset d) in
      Returns ({| colNames := colNames st; ptrArrays := ptrs;
                  intArrays := ints; identArrays := idents |},
               {| Source := in0;
                  Query := Query d;
                  Alias := Alias d;
                  ColumnAliases := aliases;
                  Columns := columns;
                  ColumnsOffset := offsets;
                  TableId := TableId d;
                  QP := None |})
  end.

(** What later code may do to a node's three containers. *)
Inductive Mutation : Type :=
  | AppendColumns (p : option loc)
  | AssignColumns (i : nat) (p : option loc)
  | AppendColumnsOffset (z : Z)
  | AssignColumnsOffset (i : nat) (z : Z)
  | AppendColumnAliases (x : IdentifierCI)
  | AssignColumnAliases (i : nat) (x : IdentifierCI)
  | AssignThroughColumns (i : nat) (c : ColName).

(** Appending to, or assigning an element of, one of the slices; as opposed
    to [*d.Columns[i] = c], which writes the object an entry points to. *)
Definition onSlices (m : Mutation) : Prop :=
  match m with
  | AssignThroughColumns _ _ => False
  | _ => True
  end.

Definition withColumns (d : Derived) (s : slice) : Derived :=
  mkDerived (Source d) (TableId d) (QP d) (Query d) (Alias d) (ColumnAliases d)
            s (ColumnsOffset d).
Definition withColumnsOffset (d : Derived) (s : slice) : Derived :=
  mkDerived (Source d) (TableId d) (QP d) (Query d) (Alias d) (ColumnAliases d)
            (Columns d) s.
Definition withColumnAliases (d : Derived) (s : slice) : Derived :=
  mkDerived (Source d) (TableId d) (QP d) (Query d) (Alias d) s
            (Columns d) (ColumnsOffset d).

Definition withPtrArrays (st : Store) (h : list (list (option loc))) : Store :=
  mkStore (colNames st) h (intArrays st) (identArrays st).
Definition withIntArrays (st : Store) (h : list (list Z)) : Store :=
  mkStore (colNames st) (ptrArrays st) h (identArrays st).
Definition withIdentArrays (st : Store) (h : list (list IdentifierCI)) : Store :=
  mkStore (colNames st) (ptrArrays st) (intArrays st) h.
Definition withColNames (st : Store) (h : list ColName) : Store :=
  mkStore h (ptrArrays st) (intArrays st) (identArrays st).

Definition mutate (st : Store) (d : Derived) (m : Mutation) : Outcome (Store * Derived) :=
  match m with
  | AppendColumns p =>
      let '(h, s) := append None (ptrArrays st) (Columns d) p in
      Returns (withPtrArrays st h, withColumns d s)
  | AssignColumns i p =>
      match assign (ptrArrays st) (Columns d) i p with
      | Returns h => Returns (withPtrArrays st h, d)
      | Panics msg => Panics msg
      end
  | AppendColumnsOffset z =>
      let '(h, s) := append 0 (intArrays st) (ColumnsOffset d) z in
      Returns (withIntArrays st h, withColumnsOffset d s)
  | AssignColumnsOffset i z =>
      match assign (intArrays st) (ColumnsOffset d) i z with
      | Returns h => Returns (withIntArrays st h, d)
      | Panics msg => Panics msg
      end
  | AppendColumnAliases x =>
      let '(h, s) := append (NewIdentifierCI "") (identArrays st) (ColumnAliases d) x in
      Returns (withIdentArrays st h, withColumnAliases d s)
  | AssignColumnAliases i x =>
      match assign (identArrays st) (ColumnAliases d) i x with
      | Returns h => Returns (withIdentArrays st h, d)
      | Panics msg => Panics msg
      end
  | AssignThroughColumns i c =>
      match elements (ptrArrays st) (Columns d) !! i with
      | Some (Some p) =>
          if decide (p < length (colNames st))%nat
          then Returns (withColNames st (<[p := c]> (colNames st)), d)
          else Panics "invalid memory address"
      | Some None => Panics "nil pointer dereference"
      | None => Panics "index out of range"
      end
  end.

Fixpoint mutateAll (st : Store) (d : Derived) (ms : list Mutation)
    : Outcome (Store * Derived) :=
  match ms with
  | [] => Returns (st, d)
  | m :: rest =>
      match mutate st d m with
      | Returns (st', d') => mutateAll st' d' rest
      | Panics msg => Panics msg
      end
  end.

(** What a reader of the node sees in its three containers: the columns its
    entries point to, the offsets, the aliases. *)
Definition deref (st : Store) (p : option loc) : option ColName :=
  p ≫= λ l, colNames st !! l.

Definition observe (st : Store) (d : Derived)
    : list (option ColName) * list Z * list IdentifierCI :=
  (map (deref st) (elements (ptrArrays st) (Columns d)),
   elements (intArrays st) (ColumnsOffset d),
   elements (identArrays st) (ColumnAliases d)).

(** The node as a value: every entry of [Columns] must point to a column. *)
Definition load (st : Store) (d : Derived) : option operators.Derived :=
  cols ← mapM (deref st) (elements (ptrArrays st) (Columns d));
  Some (operators.mkDerived (Source d) (TableId d) (QP d) (Query d) (Alias d)
          (elements (identArrays st) (ColumnAliases d))
          cols
          (elements (intArrays st) (ColumnsOffset d))).

Definition validNode (st : Store) (d : Derived) : Prop :=
  valid (ptrArrays st) (Columns d) ∧
  valid (intArrays st) (ColumnsOffset d) ∧
  valid (identArrays st) (ColumnAliases d).

Definition separate (a b : Derived) : Prop :=
  apart (Columns a) (Columns b) ∧
  apart (ColumnsOffset a) (ColumnsOffset b) ∧
  apart (ColumnAliases a) (ColumnAliases b).

(** One column object [a] and a node whose [Columns] has one entry, a pointer
    to it; [ColumnsOffset] is [[0]], with room for one more element. *)
Definition exampleStore : Store :=
  {| colNames := [fixtures.col "dt" "a"];
     ptrArrays := [[Some 0%nat]];
     intArrays := [[0; 0]];
     identArrays := [] |}.

Definition exampleNode : Derived :=
  {| Source := Some (OtherOp 0); TableId := 1%N; QP := None;
     Query := fixtures.selectA; Alias := "dt";
     ColumnAliases := {| array := None; len := 0; cap := 0 |};
     Columns := {| array := Some 0%nat; len := 1; cap := 1 |};
     ColumnsOffset := {| array := Some 0%nat; len := 1; cap := 2 |} |}.

End memory.

(** ** Vocabulary of the statements about sequences of calls *)

Definition isAliased (item : SelectExpr) : bool :=
  match item with IsAliasedExpr _ => true | _ => false end.

(** Any number of method calls, one after the other. *)
Definition steps `{Collaborators} : Derived → Derived → Prop := rtc step.

(** Every recorded offset is -1 or the index of a select item, and -1 is
    recorded only over a select list with a [StarExpr]. *)
Definition offsetsResolved (d : Derived) : Prop :=
  Forall (λ i, (i = -1 ∧ existsb isStar (GetFirstSelect (Query d)) = true) ∨
               (0 ≤ i < Z.of_nat (length (GetFirstSelect (Query d)))))
         (ColumnsOffset d).

(** No column of the list is equal, under the context's test, to a column
    before it. *)
Fixpoint distinctColumns (ctx : PlanningContext) (columns : list ColName) : Prop :=
  match columns with
  | [] => True
  | c :: rest =>
      distinctColumns ctx rest ∧
      Forall (λ later, EqualsExprWithDeps (SemTable ctx) (ColNameExpr later)
                         (ColNameExpr c) = false) rest
  end.

(** The node once [AddColumn] has recorded a new column resolved to [i]. *)
Definition recorded (d : Derived) (col : ColName) (i : Z) : Derived :=
  withColumns (withColumnsOffset d (fst (addToIntSlice (ColumnsOffset d) i)))
              (Columns d ++ [col]).

(** The request [AddColumn] passes on to the source for a column that only a
    [StarExpr] can provide. *)
Definition forwardedColumn (col : ColName) : AliasedExpr :=
  aeWrap (ColNameExpr (NewColName (IdentString (Name col)))).
(** * Column resolution: findOutputColumn *)

Lemma findOutputColumn_loop_passed name pre rest j hasStar :
  Forall (passed name) pre →
  findOutputColumn_loop name (pre ++ rest) j hasStar =
  findOutputColumn_loop name rest (j + Z.of_nat (length pre))
    (hasStar || existsb isStar pre).
Proof.
  intros Hpre. revert j hasStar.
  induction Hpre as [|item pre [Hm Hc] _ IH]; intros j hasStar.
  - simpl. by rewrite Z.add_0_r, orb_false_r.
  - replace (j + Z.of_nat (length (item :: pre)))
      with (j + 1 + Z.of_nat (length pre)) by (simpl length; lia).
    destruct item as [exp| |e]; simpl in *.
    + destruct (IsEmpty (As exp)) eqn:HE; simpl in *.
      * destruct (ae_Expr exp) as [col|ty ch]; [|done].
        rewrite Hm. apply IH.
      * rewrite Hm. apply IH.
    + rewrite IH. by rewrite orb_true_r.
    + apply IH.
Qed.

Lemma findOutputColumn_loop_match name item rest j hasStar :
  matches name item = true →
  findOutputColumn_loop name (item :: rest) j hasStar = (j, None).
Proof.
  destruct item as [exp| |e]; simpl; try done.
  destruct (IsEmpty (As exp)); simpl.
  - destruct (ae_Expr exp); [|done]. by intros ->.
  - by intros ->.
Qed.

Lemma findOutputColumn_loop_needsAlias name exp rest j hasStar :
  needsAlias (IsAliasedExpr exp) = true →
  findOutputColumn_loop name (IsAliasedExpr exp :: rest) j hasStar =
  (0, Some (VT12001 "complex expression needs column alias: %s" exp)).
Proof.
  simpl. destruct (IsEmpty (As exp)); simpl; [|done].
  by destruct (ae_Expr exp).
Qed.


Lemma findOutputColumn_unmatched (d : Derived) (name : ColName) :
  Forall (passed name) (GetFirstSelect (Query d)) →
  findOutputColumn d name =
  if existsb isStar (GetFirstSelect (Query d)) then (-1, None)
  else (0, Some (VT03014 (IdentString (Name name)) "field list")).
Proof.
  intros Hall. unfold findOutputColumn.
  rewrite <- (app_nil_r (GetFirstSelect (Query d))) at 1.
  by rewrite findOutputColumn_loop_passed.
Qed.

Lemma findOutputColumn_first_match (d : Derived) (name : ColName) pre item post :
  GetFirstSelect (Query d) = pre ++ item :: post →
  Forall (passed name) pre →
  matches name item = true →
  findOutputColumn d name = (Z.of_nat (length pre), None).
Proof.
  intros Hq Hpre Hm. unfold findOutputColumn. rewrite Hq.
  rewrite findOutputColumn_loop_passed by done.
  by rewrite findOutputColumn_loop_match.
Qed.

(** C4, as amended: provided the scan meets no alias-less select item that is
    not a bare column (before the first match, or anywhere if nothing
    matches), a name matched by no select item resolves to index -1 without
    error if the first select has a [StarExpr] anywhere, and to the unknown
    column error for "field list" if it has none; a matched name resolves to
    the index of the first matching item in declaration order. *)
Theorem findOutputColumn_resolution (d : Derived) (name : ColName) :
  (Forall (passed name) (GetFirstSelect (Query d)) →
     (existsb isStar (GetFirstSelect (Query d)) = true →
        findOutputColumn d name = (-1, None)) ∧
     (existsb isStar (GetFirstSelect (Query d)) = false →
        findOutputColumn d name =
        (0, Some (VT03014 (IdentString (Name name)) "field list")))) ∧
  (∀ pre item post,
     GetFirstSelect (Query d) = pre ++ item :: post →
     Forall (passed name) pre →
     matches name item = true →
     findOutputColumn d name = (Z.of_nat (length pre), None)).
Proof.
  split.
  - intros Hall. rewrite (findOutputColumn_unmatched d name Hall).
    split; by intros ->.
  - intros pre item post. apply findOutputColumn_first_match.
Qed.

Lemma findOutputColumn_resolution_witness :
  findOutputColumn (fixtures.derivedOver fixtures.selectStarTotal)
    (fixtures.col "dt" "y") = (-1, None) ∧
  findOutputColumn (fixtures.derivedOver fixtures.selectStarTotal)
    (fixtures.col "dt" "total") = (1, None).
Proof.
  split.
  - refine (proj1 (proj1 (findOutputColumn_resolution
                            (fixtures.derivedOver fixtures.selectStarTotal)
                            (fixtures.col "dt" "y")) _) _).
    + repeat constructor.
    + reflexivity.
  - refine (proj2 (findOutputColumn_resolution
                     (fixtures.derivedOver fixtures.selectStarTotal)
                     (fixtures.col "dt" "total"))
              [StarExpr]
              (fixtures.item
                 (Node (OtherAggrFunc "sum") [ColNameExpr (fixtures.col "" "x")])
                 "total")
              [] _ _ _).
    + reflexivity.
    + repeat constructor.
    + reflexivity.
Defined.

(** C4 as stated fails: in [SELECT *, a + 1 FROM t] no item matches [y] and a
    [StarExpr] is present, yet the result is not index -1 without error. *)
Lemma findOutputColumn_star_does_not_rescue :
  let d := fixtures.derivedOver fixtures.selectStarPlus in
  let y := fixtures.col "dt" "y" in
  Forall (λ item, matches y item = false) (GetFirstSelect (Query d)) ∧
  existsb isStar (GetFirstSelect (Query d)) = true ∧
  findOutputColumn d y ≠ (-1, None) ∧
  findOutputColumn d y =
    (0, Some (VT12001 "complex expression needs column alias: %s"
                {| ae_Expr := fixtures.plus (ColNameExpr (fixtures.col "" "a"))
                                (fixtures.lit "1");
                   As := NewIdentifierCI "" |})).
Proof.
  cbv zeta. split; [repeat constructor|].
  split; [reflexivity|]. split; [|reflexivity].
  intros H. vm_compute in H. discriminate H.
Qed.

(** C10: the complex-expression error is returned as soon as the scan reaches
    an alias-less select item whose expression is not a bare column: whatever
    was walked past before it (a [StarExpr] included) and whatever follows it
    (a [StarExpr] or an item matching the name included). *)
Theorem findOutputColumn_needs_alias (d : Derived) (name : ColName)
    (pre post : list SelectExpr) (exp : AliasedExpr) :
  GetFirstSelect (Query d) = pre ++ IsAliasedExpr exp :: post →
  Forall (passed name) pre →
  needsAlias (IsAliasedExpr exp) = true →
  findOutputColumn d name =
  (0, Some (VT12001 "complex expression needs column alias: %s" exp)).
Proof.
  intros Hq Hpre Hc. unfold findOutputColumn. rewrite Hq.
  rewrite findOutputColumn_loop_passed by done.
  by apply findOutputColumn_loop_needsAlias.
Qed.

Lemma findOutputColumn_needs_alias_witness :
  findOutputColumn (fixtures.derivedOver fixtures.selectPlusA)
    (fixtures.col "dt" "a") =
  (0, Some (VT12001 "complex expression needs column alias: %s"
              {| ae_Expr := fixtures.plus (ColNameExpr (fixtures.col "" "a"))
                              (fixtures.lit "1");
                 As := NewIdentifierCI "" |})) ∧
  findOutputColumn (fixtures.derivedOver fixtures.selectStarPlus)
    (fixtures.col "dt" "y") =
  (0, Some (VT12001 "complex expression needs column alias: %s"
              {| ae_Expr := fixtures.plus (ColNameExpr (fixtures.col "" "a"))
                              (fixtures.lit "1");
                 As := NewIdentifierCI "" |})).
Proof.
  split.
  - apply (findOutputColumn_needs_alias
             (fixtures.derivedOver fixtures.selectPlusA) (fixtures.col "dt" "a")
             [] [fixtures.item (ColNameExpr (fixtures.col "" "a")) ""]);
      [reflexivity|constructor|reflexivity].
  - apply (findOutputColumn_needs_alias
             (fixtures.derivedOver fixtures.selectStarPlus) (fixtures.col "dt" "y")
             [StarExpr] []);
      [reflexivity|repeat constructor|reflexivity].
Defined.

(** * Predicate push-down: AddPredicate *)

Lemma Expr_nested_ind (P : Expr → Prop) :
  (∀ c, P (ColNameExpr c)) →
  (∀ ty children, Forall P children → P (Node ty children)) →
  ∀ e, P e.
Proof.
  intros Hcol Hnode. fix IH 1. intros [c|ty children].
  - apply Hcol.
  - apply Hnode. induction children as [|c rest IHrest]; constructor.
    + apply IH.
    + apply IHrest.
Qed.

(** The walk stops with an error exactly at the first aggregate other than
    [Max] and [Min]; otherwise it leaves the captured variable alone. *)
Lemma VisitExpr_pushdownVisitor (e : Expr) (b : bool) :
  VisitExpr pushdownVisitor e b =
  if containsOtherAggr e then (false, Some "EOF"%string) else (b, None).
Proof.
  revert b. induction e as [c|ty children IH] using Expr_nested_ind; intros b.
  - reflexivity.
  - assert (Hall : ∀ b,
      (fix visitAll (l : list Expr) (s : bool) : bool * option string :=
         match l with
         | [] => (s, None)
         | c :: rest =>
             match VisitExpr pushdownVisitor c s with
             | (s', Some e) => (s', Some e)
             | (s', None) => visitAll rest s'
             end
         end) children b =
      if existsb containsOtherAggr children
      then (false, Some "EOF"%string) else (b, None)).
    { induction IH as [|c rest Hc _ IHrest]; intros b'; [reflexivity|].
      rewrite Hc. simpl existsb.
      destruct (containsOtherAggr c); [reflexivity|]. apply IHrest. }
    destruct ty; simpl; try apply Hall. reflexivity.
Qed.

Lemma canBePushedDownIntoDerived_spec (e : Expr) :
  canBePushedDownIntoDerived e = negb (containsOtherAggr e).
Proof.
  unfold canBePushedDownIntoDerived, Walk.
  rewrite VisitExpr_pushdownVisitor. by destruct (containsOtherAggr e).
Qed.

Section AddPredicate.
Context `{Collaborators}.

Lemma AddPredicate_not_single_table ctx (d : Derived) (expr : Expr) tableInfo :
  isUnion (Source d) = false →
  TableInfoForExpr (SemTable ctx) expr = (tableInfo, Some ErrNotSingleTable) →
  AddPredicate ctx d expr =
  Returns (d, (Some (FilterOp (DerivedOp d) [expr]), None)).
Proof. intros HU HT. unfold AddPredicate. by rewrite HU, HT. Qed.

Lemma AddPredicate_rejected ctx (d : Derived) (expr : Expr) tableInfo :
  isUnion (Source d) = false →
  TableInfoForExpr (SemTable ctx) expr = (tableInfo, None) →
  containsOtherAggr (RewriteDerivedTableExpression expr tableInfo) = true →
  AddPredicate ctx d expr =
  Returns (d, (Some (FilterOp (DerivedOp d) [expr]), None)).
Proof.
  intros HU HT HA. unfold AddPredicate.
  by rewrite HU, HT, canBePushedDownIntoDerived_spec, HA.
Qed.

Lemma AddPredicate_forwarded ctx (d : Derived) (expr : Expr) src tableInfo :
  Source d = Some src →
  isUnion (Source d) = false →
  TableInfoForExpr (SemTable ctx) expr = (tableInfo, None) →
  containsOtherAggr (RewriteDerivedTableExpression expr tableInfo) = false →
  AddPredicate ctx d expr =
  let '(newSrc, err) :=
    Source_AddPredicate ctx src (RewriteDerivedTableExpression expr tableInfo) in
  match err with
  | Some e => Returns (withSource d newSrc, (None, Some e))
  | None => Returns (withSource d newSrc, (Some (DerivedOp (withSource d newSrc)), None))
  end.
Proof.
  intros HS HU HT HA. unfold AddPredicate.
  by rewrite HU, HT, canBePushedDownIntoDerived_spec, HA, HS.
Qed.

End AddPredicate.

(** C3: with a [Source] that is not a union and an expression the context
    attributes to a single table, push-down is refused exactly when the
    rewritten expression contains an aggregate other than [Max] and [Min].
    Refusal returns a [Filter] over the node, whose fields are all as before.
    Otherwise the rewritten expression goes to [Source.AddPredicate]; when
    that call succeeds its result becomes [Source] and the node itself is
    returned (its error, if any, is passed on instead). *)
Theorem AddPredicate_pushdown_decision `{Collaborators} ctx (d : Derived)
    (expr : Expr) (src : Operator) tableInfo :
  Source d = Some src →
  isUnion (Source d) = false →
  TableInfoForExpr (SemTable ctx) expr = (tableInfo, None) →
  (containsOtherAggr (RewriteDerivedTableExpression expr tableInfo) = true →
     AddPredicate ctx d expr =
     Returns (d, (Some (FilterOp (DerivedOp d) [expr]), None))) ∧
  (containsOtherAggr (RewriteDerivedTableExpression expr tableInfo) = false →
     (∀ newSrc,
        Source_AddPredicate ctx src (RewriteDerivedTableExpression expr tableInfo)
          = (newSrc, None) →
        AddPredicate ctx d expr =
        Returns (withSource d newSrc,
                 (Some (DerivedOp (withSource d newSrc)), None))) ∧
     (∀ newSrc e,
        Source_AddPredicate ctx src (RewriteDerivedTableExpression expr tableInfo)
          = (newSrc, Some e) →
        AddPredicate ctx d expr =
        Returns (withSource d newSrc, (None, Some e)))) ∧
  ((∃ d' inner preds,
      AddPredicate ctx d expr = Returns (d', (Some (FilterOp inner preds), None)))
   ↔ containsOtherAggr (RewriteDerivedTableExpression expr tableInfo) = true).
Proof.
  intros HS HU HT. split; [|split].
  - by apply AddPredicate_rejected.
  - intros HA. split.
    + intros newSrc Hsrc.
      rewrite (AddPredicate_forwarded ctx d expr src tableInfo) by done.
      by rewrite Hsrc.
    + intros newSrc e Hsrc.
      rewrite (AddPredicate_forwarded ctx d expr src tableInfo) by done.
      by rewrite Hsrc.
  - split.
    + intros (d' & inner & preds & Hret).
      destruct (containsOtherAggr (RewriteDerivedTableExpression expr tableInfo))
        eqn:HA; [done|].
      rewrite (AddPredicate_forwarded ctx d expr src tableInfo) in Hret by done.
      destruct (Source_AddPredicate ctx src
                  (RewriteDerivedTableExpression expr tableInfo)) as [newSrc [e|]];
        discriminate Hret.
    + intros HA. exists d, (DerivedOp d), [expr].
      by apply (AddPredicate_rejected ctx d expr tableInfo).
Qed.

Lemma AddPredicate_pushdown_decision_witness :
  let d := fixtures.derivedOver fixtures.selectAB in
  let x := ColNameExpr (fixtures.col "dt" "a") in
  let counted := fixtures.gt (fixtures.count x) (fixtures.lit "1") in
  let maxed := fixtures.gt (fixtures.max x) (fixtures.lit "1") in
  AddPredicate (H := fixtures.accepting) fixtures.oneTable d counted =
    Returns (d, (Some (FilterOp (DerivedOp d) [counted]), None)) ∧
  AddPredicate (H := fixtures.accepting) fixtures.oneTable d maxed =
    Returns (withSource d (Some (FilterOp (OtherOp 0) [maxed])),
             (Some (DerivedOp (withSource d (Some (FilterOp (OtherOp 0) [maxed])))),
              None)).
Proof.
  cbv zeta. split.
  - apply (proj1 (@AddPredicate_pushdown_decision fixtures.accepting
                    fixtures.oneTable (fixtures.derivedOver fixtures.selectAB)
                    _ (OtherOp 0) (Some (TableInfoRef 0))
                    eq_refl eq_refl eq_refl)).
    reflexivity.
  - apply (proj1 (proj2 (@AddPredicate_pushdown_decision fixtures.accepting
                    fixtures.oneTable (fixtures.derivedOver fixtures.selectAB)
                    _ (OtherOp 0) (Some (TableInfoRef 0))
                    eq_refl eq_refl eq_refl))).
    + reflexivity.
    + reflexivity.
Defined.

(** C6: with a [Source] that is not a union, when the context's single-table
    attribution of the predicate fails with [ErrNotSingleTable], the call
    returns without error a [Filter] whose source is the node and whose
    predicates are exactly the original expression; the node keeps every
    field ([Source], [Columns], [ColumnsOffset], [QP] and the rest). *)
Theorem AddPredicate_not_single_table_wraps `{Collaborators} ctx (d : Derived)
    (expr : Expr) tableInfo :
  isUnion (Source d) = false →
  TableInfoForExpr (SemTable ctx) expr = (tableInfo, Some ErrNotSingleTable) →
  ∃ d',
    AddPredicate ctx d expr =
      Returns (d', (Some (FilterOp (DerivedOp d') [expr]), None)) ∧
    d' = d ∧
    Source d' = Source d ∧ Columns d' = Columns d ∧
    ColumnsOffset d' = ColumnsOffset d ∧ QP d' = QP d.
Proof.
  intros HU HT. exists d. split; [|done].
  by apply (AddPredicate_not_single_table ctx d expr tableInfo).
Qed.

Lemma AddPredicate_not_single_table_wraps_witness :
  let d := fixtures.derivedOver fixtures.selectAB in
  let e := fixtures.gt (ColNameExpr (fixtures.col "dt" "a"))
             (ColNameExpr (fixtures.col "other" "b")) in
  ∃ d',
    AddPredicate (H := fixtures.accepting) fixtures.manyTables d e =
      Returns (d', (Some (FilterOp (DerivedOp d') [e]), None)) ∧
    d' = d ∧
    Source d' = Source d ∧ Columns d' = Columns d ∧
    ColumnsOffset d' = ColumnsOffset d ∧ QP d' = QP d.
Proof.
  cbv zeta.
  apply (@AddPredicate_not_single_table_wraps fixtures.accepting
           fixtures.manyTables (fixtures.derivedOver fixtures.selectAB)
           _ None eq_refl eq_refl).
Defined.

(** * Ordering and the query-projection cache *)

(** C8: [GetOrdering] fails exactly when [QP] is nil, with the error [VT13001]
    of the internal-invariant kind, which is not a user-facing kind; with [QP]
    set it returns [QP.OrderExprs] and no error; either way the node is left
    as it was. *)
Theorem GetOrdering_requires_QP (d : Derived) :
  ((∃ e, snd (snd (GetOrdering d)) = Some e) ↔ QP d = None) ∧
  (∀ e, snd (snd (GetOrdering d)) = Some e →
        e = VT13001 "QP should already be here" ∧
        kind e = InternalInvariant ∧ userFacing (kind e) = false) ∧
  (∀ qp, QP d = Some qp → snd (GetOrdering d) = (Some (OrderExprs qp), None)) ∧
  fst (GetOrdering d) = d.
Proof.
  unfold GetOrdering. destruct (QP d) as [qp|]; simpl.
  - split; [|split; [|split]]; try done.
    + split; [by intros [e He]|done].
    + by intros ? [= <-].
  - split; [|split; [|split]]; try done.
    + split; [done|]. intros _. by eexists.
    + by intros e [= <-].
Qed.

Lemma GetOrdering_requires_QP_witness :
  let d := fixtures.derivedOver fixtures.selectA in
  let qp := fixtures.projection (GetFirstSelect fixtures.selectA) in
  GetOrdering d = (d, (None, Some (VT13001 "QP should already be here"))) ∧
  GetOrdering (setQP d (Some qp)) = (setQP d (Some qp), (Some (OrderExprs qp), None)).
Proof.
  cbv zeta.
  pose proof (GetOrdering_requires_QP (fixtures.derivedOver fixtures.selectA))
    as (_ & _ & _ & Hsame).
  pose proof (GetOrdering_requires_QP
                (setQP (fixtures.derivedOver fixtures.selectA)
                   (Some (fixtures.projection (GetFirstSelect fixtures.selectA)))))
    as (_ & _ & Hqp & Hsame').
  split.
  - reflexivity.
  - rewrite (surjective_pairing (GetOrdering _)).
    rewrite Hsame'. by rewrite (Hqp _ eq_refl).
Defined.

Lemma CloneColumns_id (n : list IdentifierCI) : CloneColumns n = n.
Proof.
  unfold CloneColumns. induction n as [|[x] n IH]; [done|].
  simpl. by rewrite IH.
Qed.

(** C9: the node [Clone] returns has a nil [QP] whatever the original's [QP]
    is; so the first [getQP] through the clone does not answer from a cache:
    it calls [CreateQPFromSelect] on the clone's query and stores what that
    returns in the clone. *)
Theorem Clone_drops_QP `{Collaborators} (d c : Derived)
    (inputs : list (option Operator)) :
  Clone d inputs = Returns c →
  QP c = None ∧
  (∀ ctx sel, Query d = Select sel →
     (∀ qp, CreateQPFromSelect ctx sel = (qp, None) →
        getQP ctx c = Returns (withQP c qp, (qp, None))) ∧
     (∀ qp e, CreateQPFromSelect ctx sel = (qp, Some e) →
        getQP ctx c = Returns (c, (None, Some e)))).
Proof.
  unfold Clone. destruct inputs as [|in0 rest]; [done|].
  intros [= <-]. split; [done|].
  intros ctx sel Hq. unfold getQP. simpl. rewrite Hq.
  split.
  - by intros qp ->.
  - by intros qp e ->.
Qed.

Lemma Clone_drops_QP_witness :
  let qp := fixtures.projection (GetFirstSelect fixtures.selectA) in
  let d := setQP (fixtures.derivedOver fixtures.selectA) (Some qp) in
  ∃ c,
    Clone d [Some (OtherOp 7)] = Returns c ∧
    QP d = Some qp ∧ QP c = None ∧
    getQP (H := fixtures.accepting) fixtures.oneTable c =
      Returns (withQP c (Some {| SelectExprs := GetFirstSelect fixtures.selectA;
                                 OrderExprs := [] |}),
               (Some {| SelectExprs := GetFirstSelect fixtures.selectA;
                        OrderExprs := [] |}, None)).
Proof.
  cbv zeta. eexists. split; [reflexivity|]. split; [reflexivity|].
  pose proof (@Clone_drops_QP fixtures.accepting
                (setQP (fixtures.derivedOver fixtures.selectA)
                   (Some (fixtures.projection (GetFirstSelect fixtures.selectA))))
                _ [Some (OtherOp 7)] eq_refl) as [Hnil Hget].
  split; [exact Hnil|].
  apply (proj1 (Hget fixtures.oneTable _ eq_refl)). reflexivity.
Defined.

(** * Column push-down: AddColumn *)

Lemma addToIntSlice_loop_None (l : list Z) (v k : Z) :
  addToIntSlice_loop l v k = None ↔ v ∉ l.
Proof.
  revert k. induction l as [|x l IH]; intros k; simpl.
  - split; [intros _; apply not_elem_of_nil|done].
  - destruct (Z.eqb_spec x v) as [->|Hne].
    + split; [done|]. intros Hn. destruct Hn. left.
    + rewrite IH, not_elem_of_cons.
      split; [intros ?; split; [congruence|done]|by intros [_ ?]].
Qed.

Lemma addToIntSlice_loop_Some (l : list Z) (v k idx : Z) :
  addToIntSlice_loop l v k = Some idx →
  ∃ n : nat, idx = k + Z.of_nat n ∧ l !! n = Some v.
Proof.
  revert k. induction l as [|x l IH]; intros k; simpl; [done|].
  destruct (Z.eqb_spec x v) as [->|Hne].
  - intros [= <-]. exists 0%nat. split; [lia|done].
  - intros (n & -> & Hn)%IH. exists (S n). split; [lia|done].
Qed.

(** What [addToIntSlice] returns: the position of a slot holding the value,
    the list being grown only when the value was absent. *)
Lemma addToIntSlice_spec (l : list Z) (v : Z) :
  ((v ∈ l) ∧ fst (addToIntSlice l v) = l ∨
   (v ∉ l) ∧ fst (addToIntSlice l v) = l ++ [v] ∧
     snd (addToIntSlice l v) = Z.of_nat (length l)) ∧
  ∃ n : nat, snd (addToIntSlice l v) = Z.of_nat n ∧
             fst (addToIntSlice l v) !! n = Some v.
Proof.
  unfold addToIntSlice.
  destruct (addToIntSlice_loop l v 0) as [idx|] eqn:Hloop; simpl.
  - pose proof (addToIntSlice_loop_Some _ _ _ _ Hloop) as (n & -> & Hn).
    split.
    + left. split; [|done]. by eapply list_elem_of_lookup_2.
    + exists n. split; [lia|done].
  - apply addToIntSlice_loop_None in Hloop. split.
    + right. split; [done|]. split; [done|]. rewrite length_app. simpl. lia.
    + exists (length l). split.
      * rewrite length_app. simpl. lia.
      * by rewrite lookup_app_r, Nat.sub_diag.
Qed.

Lemma addToIntSlice_NoDup (l : list Z) (v : Z) :
  NoDup l → NoDup (fst (addToIntSlice l v)).
Proof.
  intros Hnd.
  destruct (addToIntSlice_spec l v) as [[[_ ->]|(Hni & -> & _)] _]; [done|].
  apply NoDup_app. split; [done|]. split; [|apply NoDup_singleton].
  intros x Hx ->%list_elem_of_singleton. done.
Qed.

Lemma addToIntSlice_length (l : list Z) (v : Z) :
  (length l ≤ length (fst (addToIntSlice l v)) ≤ S (length l))%nat.
Proof.
  destruct (addToIntSlice_spec l v) as [[[_ ->]|(_ & -> & _)] _].
  - lia.
  - rewrite length_app. simpl. lia.
Qed.

Lemma addToIntSlice_loop_app (l : list Z) (v k : Z) :
  addToIntSlice_loop l v k = None →
  addToIntSlice_loop (l ++ [v]) v k = Some (k + Z.of_nat (length l)).
Proof.
  revert k. induction l as [|x l IH]; intros k; simpl.
  - intros _. rewrite Z.eqb_refl. f_equal. lia.
  - destruct (x =? v); [done|]. intros Hk%IH. rewrite Hk. f_equal. lia.
Qed.

(** Asking for a value a second time finds the slot of the first time. *)
Lemma addToIntSlice_again (l : list Z) (v : Z) :
  addToIntSlice (fst (addToIntSlice l v)) v = addToIntSlice l v.
Proof.
  unfold addToIntSlice at 2 3.
  destruct (addToIntSlice_loop l v 0) as [idx|] eqn:Hloop; simpl.
  - unfold addToIntSlice. by rewrite Hloop.
  - unfold addToIntSlice. rewrite (addToIntSlice_loop_app _ _ _ Hloop).
    f_equal. rewrite length_app. simpl. lia.
Qed.

Lemma occurrences_absent (i : Z) (l : list Z) :
  i ∉ l → occurrences i l = 0%nat.
Proof.
  unfold occurrences. induction l as [|x l IH]; [done|].
  intros [Hne Hni]%not_elem_of_cons.
  rewrite filter_cons_False by congruence. by apply IH.
Qed.

Lemma occurrences_NoDup (i : Z) (l : list Z) :
  NoDup l → i ∈ l → occurrences i l = 1%nat.
Proof.
  induction 1 as [|x l Hx Hnd IH]; [by intros ?%elem_of_nil|].
  intros [->|Hin]%elem_of_cons; unfold occurrences.
  - rewrite filter_cons_True by done. simpl. f_equal.
    by apply occurrences_absent.
  - rewrite filter_cons_False; [by apply IH|].
    intros ->. done.
Qed.

Section canReuseColumn.
Context {T : Type} (ctx : PlanningContext) (f : T → Expr) (col : Expr).

Let differs (column : T) : Prop :=
  EqualsExprWithDeps (SemTable ctx) col (f column) = false.

Lemma canReuseColumn_loop_none (columns : list T) (k : Z) :
  Forall differs columns →
  canReuseColumn_loop ctx columns col f k = (0, false).
Proof.
  intros Hall. revert k. induction Hall as [|c rest Hc _ IH]; intros k; simpl.
  - done.
  - unfold differs in Hc. rewrite Hc. apply IH.
Qed.

Lemma canReuseColumn_loop_first (pre post : list T) (c : T) (k : Z) :
  Forall differs pre →
  EqualsExprWithDeps (SemTable ctx) col (f c) = true →
  canReuseColumn_loop ctx (pre ++ c :: post) col f k =
  (k + Z.of_nat (length pre), true).
Proof.
  intros Hall Hc. revert k. induction Hall as [|x pre Hx _ IH]; intros k; simpl.
  - rewrite Hc. f_equal. lia.
  - unfold differs in Hx. rewrite Hx, IH. f_equal. lia.
Qed.

Lemma canReuseColumn_loop_inv (columns : list T) (k offset : Z) (found : bool) :
  canReuseColumn_loop ctx columns col f k = (offset, found) →
  if found then
    ∃ pre c post, columns = pre ++ c :: post ∧ Forall differs pre ∧
                  EqualsExprWithDeps (SemTable ctx) col (f c) = true ∧
                  offset = k + Z.of_nat (length pre)
  else Forall differs columns ∧ offset = 0.
Proof.
  revert k. induction columns as [|c rest IH]; intros k; simpl.
  - intros [= <- <-]. done.
  - destruct (EqualsExprWithDeps (SemTable ctx) col (f c)) eqn:Hc.
    + intros [= <- <-]. exists [], c, rest. simpl.
      split; [done|]. split; [done|]. split; [done|]. lia.
    + intros Hrest. specialize (IH _ Hrest). destruct found.
      * destruct IH as (pre & c' & post & -> & Hpre & Hc' & ->).
        exists (c :: pre), c', post. simpl.
        split; [done|]. split; [by constructor|]. split; [done|]. lia.
      * destruct IH as [Hall ->]. split; [by constructor|done].
Qed.

End canReuseColumn.

Section AddColumn.
Context `{Collaborators}.

Lemma AddColumn_reuse ctx (d : Derived) expr col reuse addToGroupBy pre c post :
  ae_Expr expr = ColNameExpr col →
  Columns d = pre ++ c :: post →
  unseen ctx pre col →
  EqualsExprWithDeps (SemTable ctx) (ColNameExpr col) (ColNameExpr c) = true →
  AddColumn ctx d expr reuse addToGroupBy =
  Returns (d, (Some (DerivedOp d), Z.of_nat (length pre), None)).
Proof.
  intros He Hcols Hpre Hc. unfold AddColumn, canReuseColumn.
  rewrite He, Hcols.
  rewrite (canReuseColumn_loop_first ctx (λ c, ColNameExpr c)) by done.
  by rewrite Z.add_0_l.
Qed.

(** A call that returns: either the column is reused and nothing changes, or
    it is new and resolved, [Columns] gets it at the end and [ColumnsOffset]
    is what [addToIntSlice] makes of the resolved index. *)
Lemma AddColumn_inv ctx (d d' : Derived) expr reuse addToGroupBy root k err :
  AddColumn ctx d expr reuse addToGroupBy = Returns (d', (root, k, err)) →
  Query d' = Query d ∧
  ((d' = d) ∨
   ∃ col i,
     ae_Expr expr = ColNameExpr col ∧
     unseen ctx (Columns d) col ∧
     findOutputColumn d col = (i, None) ∧
     Columns d' = Columns d ++ [col] ∧
     ColumnsOffset d' = fst (addToIntSlice (ColumnsOffset d) i) ∧
     (err = None → k = snd (addToIntSlice (ColumnsOffset d) i) ∧
                   root = Some (DerivedOp d'))).
Proof.
  unfold AddColumn, canReuseColumn.
  destruct (ae_Expr expr) as [col|ty ch] eqn:He; [|intros [= <- <- <- <-]; auto].
  destruct (canReuseColumn_loop ctx (Columns d) (ColNameExpr col)
              (λ c, ColNameExpr c) 0) as [offset found] eqn:Hreuse.
  apply canReuseColumn_loop_inv in Hreuse.
  destruct found; [intros [= <- <- <- <-]; auto|].
  destruct Hreuse as [Hunseen _].
  destruct (findOutputColumn d col) as [i [e|]] eqn:Hfind;
    [intros [= <- <- <- <-]; auto|].
  destruct (addToIntSlice (ColumnsOffset d) i) as [offs pos] eqn:Hadd.
  assert (Hfst : offs = fst (addToIntSlice (ColumnsOffset d) i)) by by rewrite Hadd.
  assert (Hsnd : pos = snd (addToIntSlice (ColumnsOffset d) i)) by by rewrite Hadd.
  clear Hadd. simpl.
  destruct (i <=? -1).
  - destruct (Source d) as [src|]; [|done].
    destruct (Source_AddColumn _ _ _ _ _) as [src' [[newSrc off] [e|]]].
    + intros [= <- <- <- <-]. split; [done|]. right. exists col, i.
      by split_and!.
    + intros [= <- <- <- <-]. split; [done|]. right. exists col, i.
      by split_and!.
  - intros [= <- <- <- <-]. split; [done|]. right. exists col, i.
    by split_and!.
Qed.

End AddColumn.

Section AddColumn_fresh.
Context `{Collaborators}.

Lemma AddColumn_fresh_inv ctx (d d' : Derived) expr col i reuse addToGroupBy root k :
  ae_Expr expr = ColNameExpr col →
  unseen ctx (Columns d) col →
  findOutputColumn d col = (i, None) →
  AddColumn ctx d expr reuse addToGroupBy = Returns (d', (root, k, None)) →
  Columns d' = Columns d ++ [col] ∧
  ColumnsOffset d' = fst (addToIntSlice (ColumnsOffset d) i) ∧
  k = snd (addToIntSlice (ColumnsOffset d) i) ∧
  root = Some (DerivedOp d') ∧
  Query d' = Query d.
Proof.
  intros He Hun Hfind. unfold AddColumn, canReuseColumn. rewrite He.
  rewrite (canReuseColumn_loop_none ctx (λ c, ColNameExpr c)) by exact Hun.
  rewrite Hfind.
  destruct (addToIntSlice (ColumnsOffset d) i) as [offs pos]. simpl.
  destruct (i <=? -1).
  - destruct (Source d) as [src|]; [|done].
    destruct (Source_AddColumn _ _ _ _ _) as [src' [[newSrc off] [e|]]]; [done|].
    by intros [= <- <- <-].
  - by intros [= <- <- <-].
Qed.

Lemma AddPredicate_frame ctx (d d' : Derived) expr res :
  AddPredicate ctx d expr = Returns (d', res) →
  Columns d' = Columns d ∧ ColumnsOffset d' = ColumnsOffset d ∧
  ColumnAliases d' = ColumnAliases d ∧ Query d' = Query d ∧ QP d' = QP d.
Proof.
  unfold AddPredicate. destruct (isUnion (Source d)).
  - destruct (Source d) as [src|]; [|done].
    destruct (Source_AddPredicate _ _ _) as [newSrc err]. by intros [= <- <-].
  - destruct (TableInfoForExpr _ _) as [tableInfo [e|]].
    + destruct (is_ErrNotSingleTable e); by intros [= <- <-].
    + destruct (negb _); [by intros [= <- <-]|].
      destruct (Source d) as [src|]; [|done].
      destruct (Source_AddPredicate _ _ _) as [newSrc [e|]]; by intros [= <- <-].
Qed.

Lemma step_slices (d d' : Derived) :
  step d d' →
  (Columns d' = Columns d ∧ ColumnsOffset d' = ColumnsOffset d) ∨
  (∃ col i, Columns d' = Columns d ++ [col] ∧
            ColumnsOffset d' = fst (addToIntSlice (ColumnsOffset d) i)).
Proof.
  destruct 1 as [ctx d expr r g d' [[root k] err] Hcall
                |ctx d expr d' res Hcall
                |d inputs c Hcall
                |d ops d' Hcall
                |ctx d d' res Hcall
                |d qp
                |d].
  - apply AddColumn_inv in Hcall as [_ [->|(col & i & _ & _ & _ & Hc & Ho & _)]];
      [by left|right; eauto].
  - apply AddPredicate_frame in Hcall as (? & ? & _). by left.
  - unfold Clone in Hcall. destruct inputs; [done|].
    injection Hcall as <-. by left.
  - unfold SetInputs in Hcall. destruct ops; [done|].
    injection Hcall as <-. by left.
  - unfold getQP in Hcall. destruct (QP d); [injection Hcall as <- _; by left|].
    destruct (Query d); [|done].
    destruct (CreateQPFromSelect _ _) as [qp [e|]];
      injection Hcall as <- _; by left.
  - by left.
  - unfold GetOrdering. destruct (QP d); by left.
Qed.

(** [ColumnsOffset] never holds a value twice: no method call breaks it. *)
Lemma step_NoDup_ColumnsOffset (d d' : Derived) :
  step d d' → NoDup (ColumnsOffset d) → NoDup (ColumnsOffset d').
Proof.
  intros [[_ ->]|(col & i & _ & ->)]%step_slices Hnd; [done|].
  by apply addToIntSlice_NoDup.
Qed.

End AddColumn_fresh.

(** C5: when two successive successful [AddColumn] calls on a node ask for
    two columns that are new to the node and differ from one another under
    the context's test, and [findOutputColumn] resolves both to the same
    index [i], then [i] occurs exactly once in [ColumnsOffset], both calls
    return the position of that one slot, and [Columns] has gained the two
    columns, one per call.  (A node's [ColumnsOffset] has no repeated entry:
    it is only ever written by [addToIntSlice].) *)
Theorem AddColumn_shared_offset `{Collaborators} ctx (d0 d1 d2 : Derived)
    (e1 e2 : AliasedExpr) (c1 c2 : ColName) (i k1 k2 : Z)
    (r1 g1 r2 g2 : bool) (root1 root2 : option Operator) :
  NoDup (ColumnsOffset d0) →
  ae_Expr e1 = ColNameExpr c1 →
  ae_Expr e2 = ColNameExpr c2 →
  unseen ctx (Columns d0) c1 →
  unseen ctx (Columns d0) c2 →
  EqualsExprWithDeps (SemTable ctx) (ColNameExpr c2) (ColNameExpr c1) = false →
  findOutputColumn d0 c1 = (i, None) →
  findOutputColumn d1 c2 = (i, None) →
  AddColumn ctx d0 e1 r1 g1 = Returns (d1, (root1, k1, None)) →
  AddColumn ctx d1 e2 r2 g2 = Returns (d2, (root2, k2, None)) →
  occurrences i (ColumnsOffset d2) = 1%nat ∧
  k1 = k2 ∧
  (∃ n : nat, k1 = Z.of_nat n ∧ ColumnsOffset d2 !! n = Some i) ∧
  Columns d2 = Columns d0 ++ [c1; c2] ∧
  root1 = Some (DerivedOp d1) ∧ root2 = Some (DerivedOp d2).
Proof.
  intros Hnd He1 He2 Hun1 Hun2 Hdiff Hf1 Hf2 Hcall1 Hcall2.
  destruct (AddColumn_fresh_inv _ _ _ _ _ _ _ _ _ _ He1 Hun1 Hf1 Hcall1)
    as (Hc1 & Ho1 & -> & -> & _).
  assert (Hun2' : unseen ctx (Columns d1) c2).
  { rewrite Hc1. apply Forall_app. split; [done|]. by constructor. }
  destruct (AddColumn_fresh_inv _ _ _ _ _ _ _ _ _ _ He2 Hun2' Hf2 Hcall2)
    as (Hc2 & Ho2 & -> & -> & _).
  rewrite Ho1, addToIntSlice_again in Ho2.
  rewrite Ho1, addToIntSlice_again.
  destruct (addToIntSlice_spec (ColumnsOffset d0) i) as [_ (n & Hn & Hlook)].
  rewrite Ho2. split_and!; try done.
  - apply occurrences_NoDup; [by apply addToIntSlice_NoDup|].
    by eapply list_elem_of_lookup_2.
  - by exists n.
  - by rewrite Hc2, Hc1, <- app_assoc.
Qed.

Lemma AddColumn_shared_offset_witness :
  let d0 := fixtures.derivedOver fixtures.selectA in
  let qualified := fixtures.col "dt" "a" in
  let bare := fixtures.col "" "a" in
  let d1 := fixtures.demanding d0 [qualified] [0] in
  let d2 := fixtures.demanding d0 [qualified; bare] [0] in
  AddColumn (H := fixtures.accepting) fixtures.oneTable d0
    (aeWrap (ColNameExpr qualified)) true false =
    Returns (d1, (Some (DerivedOp d1), 0, None)) ∧
  AddColumn (H := fixtures.accepting) fixtures.oneTable d1
    (aeWrap (ColNameExpr bare)) true false =
    Returns (d2, (Some (DerivedOp d2), 0, None)) ∧
  occurrences 0 (ColumnsOffset d2) = 1%nat ∧
  Columns d2 = [qualified; bare].
Proof.
  cbv zeta. split; [reflexivity|]. split; [reflexivity|].
  destruct (@AddColumn_shared_offset fixtures.accepting fixtures.oneTable
              (fixtures.derivedOver fixtures.selectA)
              (fixtures.demanding (fixtures.derivedOver fixtures.selectA)
                 [fixtures.col "dt" "a"] [0])
              (fixtures.demanding (fixtures.derivedOver fixtures.selectA)
                 [fixtures.col "dt" "a"; fixtures.col "" "a"] [0])
              (aeWrap (ColNameExpr (fixtures.col "dt" "a")))
              (aeWrap (ColNameExpr (fixtures.col "" "a")))
              (fixtures.col "dt" "a") (fixtures.col "" "a") 0 0 0
              true false true false _ _
              (NoDup_nil_2 : NoDup (ColumnsOffset (fixtures.derivedOver fixtures.selectA)))
              eq_refl eq_refl
              (Forall_nil_2 _) (Forall_nil_2 _) eq_refl eq_refl eq_refl
              eq_refl eq_refl)
    as (Hocc & _ & _ & Hcols & _).
  split; [exact Hocc|exact Hcols].
Defined.

(** A call for a new column that resolves: the column is recorded, whatever
    the source then says. *)
Lemma AddColumn_new_column `{Collaborators} ctx (d d' : Derived) expr col i
    reuse addToGroupBy res :
  ae_Expr expr = ColNameExpr col →
  unseen ctx (Columns d) col →
  findOutputColumn d col = (i, None) →
  AddColumn ctx d expr reuse addToGroupBy = Returns (d', res) →
  Columns d' = Columns d ++ [col] ∧
  ColumnsOffset d' = fst (addToIntSlice (ColumnsOffset d) i).
Proof.
  intros He Hun Hfind. unfold AddColumn, canReuseColumn. rewrite He.
  rewrite (canReuseColumn_loop_none ctx (λ c, ColNameExpr c)) by exact Hun.
  rewrite Hfind.
  destruct (addToIntSlice (ColumnsOffset d) i) as [offs pos]. simpl.
  destruct (i <=? -1).
  - destruct (Source d) as [src|]; [|done].
    destruct (Source_AddColumn _ _ _ _ _) as [src' [[newSrc off] [e|]]];
      by intros [= <- <-].
  - by intros [= <- <-].
Qed.

(** C2, as amended: [len(ColumnsOffset) <= len(Columns)] holds of a node
    without demanded columns and is preserved by every method call.  An
    [AddColumn] call that returns does one of three things.  For a new column
    that resolves to an index already in [ColumnsOffset], [Columns] gets the
    column and [ColumnsOffset] stays as it is; for a new column that resolves
    to an index not yet recorded, both get one entry; any other call leaves
    both alone.  So, on a node where the two lengths are equal, they are
    equal after the call exactly when the call is not of the first sort, and
    after a call of the first sort [Columns] is one longer than
    [ColumnsOffset]. *)
Theorem ColumnsOffset_at_most_Columns `{Collaborators} :
  (∀ d : Derived, Columns d = [] → ColumnsOffset d = [] →
     length (ColumnsOffset d) = length (Columns d)) ∧
  (∀ d d' : Derived, step d d' →
     (length (ColumnsOffset d) ≤ length (Columns d))%nat →
     (length (ColumnsOffset d') ≤ length (Columns d'))%nat) ∧
  (∀ ctx (d d' : Derived) expr reuse addToGroupBy res,
     AddColumn ctx d expr reuse addToGroupBy = Returns (d', res) →
     length (ColumnsOffset d) = length (Columns d) →
     length (ColumnsOffset d') = length (Columns d') ∨
     ∃ col i,
       ae_Expr expr = ColNameExpr col ∧ unseen ctx (Columns d) col ∧
       findOutputColumn d col = (i, None) ∧ i ∈ ColumnsOffset d ∧
       length (Columns d') = S (length (ColumnsOffset d'))) ∧
  (∀ ctx (d d' : Derived) expr reuse addToGroupBy res,
     AddColumn ctx d expr reuse addToGroupBy = Returns (d', res) →
     (∀ col i,
        ae_Expr expr = ColNameExpr col → unseen ctx (Columns d) col →
        findOutputColumn d col = (i, None) →
        Columns d' = Columns d ++ [col] ∧
        (i ∈ ColumnsOffset d → ColumnsOffset d' = ColumnsOffset d) ∧
        (i ∉ ColumnsOffset d → ColumnsOffset d' = ColumnsOffset d ++ [i])) ∧
     ((¬ ∃ col i,
           ae_Expr expr = ColNameExpr col ∧ unseen ctx (Columns d) col ∧
           findOutputColumn d col = (i, None)) →
      Columns d' = Columns d ∧ ColumnsOffset d' = ColumnsOffset d) ∧
     (length (ColumnsOffset d) = length (Columns d) →
      (length (ColumnsOffset d') = length (Columns d') ↔
       ¬ ∃ col i,
           ae_Expr expr = ColNameExpr col ∧ unseen ctx (Columns d) col ∧
           findOutputColumn d col = (i, None) ∧ i ∈ ColumnsOffset d) ∧
      ((∃ col i,
          ae_Expr expr = ColNameExpr col ∧ unseen ctx (Columns d) col ∧
          findOutputColumn d col = (i, None) ∧ i ∈ ColumnsOffset d) →
       length (Columns d') = S (length (Columns d)) ∧
       length (ColumnsOffset d') = length (ColumnsOffset d) ∧
       length (Columns d') = S (length (ColumnsOffset d'))))).
Proof.
  assert (Hnew : ∀ ctx (d d' : Derived) expr reuse addToGroupBy res col i,
    AddColumn ctx d expr reuse addToGroupBy = Returns (d', res) →
    ae_Expr expr = ColNameExpr col → unseen ctx (Columns d) col →
    findOutputColumn d col = (i, None) →
    Columns d' = Columns d ++ [col] ∧
    (i ∈ ColumnsOffset d → ColumnsOffset d' = ColumnsOffset d) ∧
    (i ∉ ColumnsOffset d → ColumnsOffset d' = ColumnsOffset d ++ [i])).
  { intros ctx d d' expr r g res col i Hcall He Hun Hfind.
    destruct (AddColumn_new_column _ _ _ _ _ _ _ _ _ He Hun Hfind Hcall) as [Hc Ho].
    split; [done|]. rewrite Ho.
    destruct (addToIntSlice_spec (ColumnsOffset d) i)
      as [[[Hin ->]|(Hni & -> & _)] _]; split; done. }
  split_and!.
  - by intros d -> ->.
  - intros d d' [[-> ->]|(col & i & -> & ->)]%step_slices Hle; [done|].
    pose proof (addToIntSlice_length (ColumnsOffset d) i).
    rewrite length_app. simpl. lia.
  - intros ctx d d' expr r g [[root k] err] Hcall Hlen.
    apply AddColumn_inv in Hcall
      as [_ [->|(col & i & He & Hun & Hfind & Hc & Ho & _)]]; [by left|].
    rewrite Hc, Ho, length_app. simpl.
    destruct (addToIntSlice_spec (ColumnsOffset d) i)
      as [[[Hin ->]|(_ & -> & _)] _].
    + right. exists col, i. split_and!; try done. lia.
    + left. rewrite length_app. simpl. lia.
  - intros ctx d d' expr r g res Hcall. split_and!.
    + intros col i. by apply (Hnew ctx d d' expr r g res).
    + intros Hother. destruct res as [[root k] err].
      apply AddColumn_inv in Hcall
        as [_ [->|(col & i & He & Hun & Hfind & _)]]; [done|].
      destruct Hother. by exists col, i.
    + intros Hlen. split.
      * split.
        -- intros Heq (col & i & He & Hun & Hfind & Hin).
           destruct (Hnew ctx d d' expr r g res col i Hcall He Hun Hfind)
             as (Hc & Ho & _).
           rewrite Hc, (Ho Hin), length_app in Heq. simpl in Heq. lia.
        -- intros Hnot. pose proof Hcall as Hcall0.
           destruct res as [[root k] err].
           apply AddColumn_inv in Hcall
             as [_ [->|(col & i & He & Hun & Hfind & _)]]; [done|].
           destruct (Hnew ctx d d' expr r g _ col i Hcall0 He Hun Hfind)
             as (Hc & _ & Ho).
           assert (Hni : i ∉ ColumnsOffset d).
           { intros Hin. apply Hnot. by exists col, i. }
           rewrite Hc, (Ho Hni), !length_app. simpl. lia.
      * intros (col & i & He & Hun & Hfind & Hin).
        destruct (Hnew ctx d d' expr r g res col i Hcall He Hun Hfind)
          as (Hc & Ho & _).
        rewrite Hc, (Ho Hin), length_app. simpl. lia.
Qed.

Lemma ColumnsOffset_at_most_Columns_witness :
  let d0 := fixtures.derivedOver fixtures.selectA in
  let d1 := fixtures.demanding d0 [fixtures.col "dt" "a"] [0] in
  let a := fixtures.col "" "a" in
  length (ColumnsOffset d0) = length (Columns d0) ∧
  ∃ d' res,
    AddColumn (H := fixtures.accepting) fixtures.oneTable d1
      (aeWrap (ColNameExpr a)) true false = Returns (d', res) ∧
    length (ColumnsOffset d1) = length (Columns d1) ∧
    (length (ColumnsOffset d') ≤ length (Columns d'))%nat ∧
    Columns d' = Columns d1 ++ [a] ∧
    ColumnsOffset d' = ColumnsOffset d1 ∧
    length (Columns d') = S (length (ColumnsOffset d')) ∧
    length (ColumnsOffset d') ≠ length (Columns d').
Proof.
  cbv zeta.
  pose proof (@ColumnsOffset_at_most_Columns fixtures.accepting)
    as (Hinit & Hstep & _ & Hadd).
  split; [exact (Hinit (fixtures.derivedOver fixtures.selectA) eq_refl eq_refl)|].
  destruct (AddColumn (H := fixtures.accepting) fixtures.oneTable
              (fixtures.demanding (fixtures.derivedOver fixtures.selectA)
                 [fixtures.col "dt" "a"] [0])
              (aeWrap (ColNameExpr (fixtures.col "" "a"))) true false)
    as [[d' res]|reason] eqn:Hcall; [|discriminate Hcall].
  exists d', res. split; [reflexivity|]. split; [reflexivity|].
  destruct (Hadd fixtures.oneTable _ d' _ true false res Hcall)
    as (Hnew & _ & Hlen).
  destruct (Hnew (fixtures.col "" "a") 0 eq_refl) as (Hc & Ho & _).
  { repeat constructor. }
  { reflexivity. }
  assert (Hin : 0 ∈ ColumnsOffset
                      (fixtures.demanding (fixtures.derivedOver fixtures.selectA)
                         [fixtures.col "dt" "a"] [0])).
  { simpl. apply list_elem_of_here. }
  destruct (Hlen eq_refl) as [Hiff Hgrow].
  assert (Hdedup : ∃ col i,
    ae_Expr (aeWrap (ColNameExpr (fixtures.col "" "a"))) = ColNameExpr col ∧
    unseen fixtures.oneTable
      (Columns (fixtures.demanding (fixtures.derivedOver fixtures.selectA)
                  [fixtures.col "dt" "a"] [0])) col ∧
    findOutputColumn
      (fixtures.demanding (fixtures.derivedOver fixtures.selectA)
         [fixtures.col "dt" "a"] [0]) col = (i, None) ∧
    i ∈ ColumnsOffset
          (fixtures.demanding (fixtures.derivedOver fixtures.selectA)
             [fixtures.col "dt" "a"] [0])).
  { exists (fixtures.col "" "a"), 0. split_and!; try done. repeat constructor. }
  destruct (Hgrow Hdedup) as (_ & _ & Hone).
  split_and!.
  - refine (Hstep _ d' _ _).
    + by eapply (step_AddColumn fixtures.oneTable).
    + simpl. lia.
  - exact Hc.
  - exact (Ho Hin).
  - exact Hone.
  - intros Heq. by apply (proj1 Hiff Heq).
Defined.

(** C2 as stated fails: after two successful [AddColumn] calls on a node
    over [SELECT a FROM t], for [dt.a] and then [a], [Columns] has two
    entries and [ColumnsOffset] one. *)
Lemma Columns_outgrows_ColumnsOffset :
  let d0 := fixtures.derivedOver fixtures.selectA in
  let d1 := fixtures.demanding d0 [fixtures.col "dt" "a"] [0] in
  let d2 := fixtures.demanding d0 [fixtures.col "dt" "a"; fixtures.col "" "a"] [0] in
  length (Columns d0) = length (ColumnsOffset d0) ∧
  AddColumn (H := fixtures.accepting) fixtures.oneTable d0
    (aeWrap (ColNameExpr (fixtures.col "dt" "a"))) true false =
    Returns (d1, (Some (DerivedOp d1), 0, None)) ∧
  AddColumn (H := fixtures.accepting) fixtures.oneTable d1
    (aeWrap (ColNameExpr (fixtures.col "" "a"))) true false =
    Returns (d2, (Some (DerivedOp d2), 0, None)) ∧
  length (Columns d2) ≠ length (ColumnsOffset d2).
Proof.
  cbv zeta. split; [reflexivity|]. split; [reflexivity|].
  split; [reflexivity|]. simpl. lia.
Qed.

(** X14: what a repeated request does in general: it succeeds, changes nothing,
    and answers the position of the column in [Columns].  That is the offset
    of the first request when that one was itself a reuse; when the first
    request added the column, it is the old length of [Columns], whereas the
    first request answered [addToIntSlice]'s position in [ColumnsOffset]. *)
Lemma AddColumn_again `{Collaborators} ctx (d d' : Derived) (e e' : AliasedExpr)
    (col col' : ColName) (r g r' g' : bool) (root : option Operator) (k : Z) :
  ae_Expr e = ColNameExpr col →
  ae_Expr e' = ColNameExpr col' →
  (∀ x, EqualsExprWithDeps (SemTable ctx) (ColNameExpr col') x =
        EqualsExprWithDeps (SemTable ctx) (ColNameExpr col) x) →
  EqualsExprWithDeps (SemTable ctx) (ColNameExpr col') (ColNameExpr col) = true →
  AddColumn ctx d e r g = Returns (d', (root, k, None)) →
  ∃ k',
    AddColumn ctx d' e' r' g' = Returns (d', (Some (DerivedOp d'), k', None)) ∧
    (Columns d' = Columns d ∧ k' = k ∨
     ∃ i, Columns d' = Columns d ++ [col] ∧ k' = Z.of_nat (length (Columns d)) ∧
          findOutputColumn d col = (i, None) ∧
          k = snd (addToIntSlice (ColumnsOffset d) i)).
Proof.
  intros He He' Hcongr Heq Hcall.
  assert (Hun : ∀ l, unseen ctx l col → unseen ctx l col').
  { intros l Hl. eapply Forall_impl; [exact Hl|].
    intros x. simpl. by rewrite Hcongr. }
  pose proof Hcall as Hcall0.
  unfold AddColumn, canReuseColumn in Hcall. rewrite He in Hcall.
  destruct (canReuseColumn_loop ctx (Columns d) (ColNameExpr col)
              (λ c, ColNameExpr c) 0) as [offset found] eqn:Hreuse.
  apply canReuseColumn_loop_inv in Hreuse. destruct found.
  - destruct Hreuse as (pre & c & post & Hcols & Hpre & Hc & ->).
    injection Hcall as <- _ <-. exists (Z.of_nat (length pre)). split.
    + apply (AddColumn_reuse ctx d e' col' r' g' pre c post); try done.
      * by apply Hun.
      * by rewrite Hcongr.
    + left. split; [done|lia].
  - destruct Hreuse as [Hunseen _]. clear Hcall.
    destruct (findOutputColumn d col) as [i [err|]] eqn:Hfind.
    { unfold AddColumn, canReuseColumn in Hcall0. rewrite He in Hcall0.
      rewrite (canReuseColumn_loop_none ctx (λ c, ColNameExpr c)) in Hcall0
        by exact Hunseen.
      by rewrite Hfind in Hcall0. }
    destruct (AddColumn_fresh_inv _ _ _ _ _ _ _ _ _ _ He Hunseen Hfind Hcall0)
      as (Hc & _ & Hk & _ & _).
    exists (Z.of_nat (length (Columns d))). split.
    + apply (AddColumn_reuse ctx d' e' col' r' g' (Columns d) col []); try done.
      by apply Hun.
    + right. by exists i.
Qed.

(** C1, evaluated where it fails: on the node that already serves [dt.a]
    from select item 0, the request for [a] succeeds with offset 0; the same
    request again succeeds and leaves [Columns] alone, but answers offset 1. *)
Theorem AddColumn_repeated_request_changes_offset :
  let d0 := fixtures.derivedOver fixtures.selectA in
  let d1 := fixtures.demanding d0 [fixtures.col "dt" "a"] [0] in
  let d2 := fixtures.demanding d0 [fixtures.col "dt" "a"; fixtures.col "" "a"] [0] in
  let a := aeWrap (ColNameExpr (fixtures.col "" "a")) in
  AddColumn (H := fixtures.accepting) fixtures.oneTable d0
    (aeWrap (ColNameExpr (fixtures.col "dt" "a"))) true false =
    Returns (d1, (Some (DerivedOp d1), 0, None)) ∧
  AddColumn (H := fixtures.accepting) fixtures.oneTable d1 a true false =
    Returns (d2, (Some (DerivedOp d2), 0, None)) ∧
  EqualsExprWithDeps (SemTable fixtures.oneTable) (ae_Expr a) (ae_Expr a) = true ∧
  AddColumn (H := fixtures.accepting) fixtures.oneTable d2 a true false =
    Returns (d2, (Some (DerivedOp d2), 1, None)).
Proof. cbv zeta. by split_and!. Qed.

(** * Cloning and aliasing *)

Section slice_facts.
Context {A : Type} (zero : A).
Implicit Types (h : list (list A)) (s : memory.slice) (x : A).

Lemma valid_length_elements h s :
  memory.valid h s → length (memory.elements h s) = memory.len s.
Proof.
  unfold memory.valid, memory.elements. destruct (memory.array s) as [l|].
  - intros (arr & -> & Hlen & Hle). simpl. rewrite length_take. lia.
  - by intros [-> _].
Qed.

Lemma elements_alloc h s arr :
  memory.valid h s → memory.elements (h ++ [arr]) s = memory.elements h s.
Proof.
  unfold memory.valid, memory.elements. destruct (memory.array s) as [l|]; [|done].
  intros (a & Hl & _). rewrite lookup_app_l; [done|]. by eapply lookup_lt_Some.
Qed.

Lemma valid_alloc h s arr :
  memory.valid h s → memory.valid (h ++ [arr]) s.
Proof.
  unfold memory.valid. destruct (memory.array s) as [l|]; [|done].
  intros (a & Hl & Hrest). exists a. split; [|done].
  rewrite lookup_app_l; [done|]. by eapply lookup_lt_Some.
Qed.

Lemma apart_fresh h s n c :
  memory.valid h s →
  memory.apart {| memory.array := Some (length h); memory.len := n; memory.cap := c |} s.
Proof.
  unfold memory.valid, memory.apart. simpl.
  destruct (memory.array s) as [l|]; [|done].
  intros (a & Hl%lookup_lt_Some & _). lia.
Qed.

(** A copy into a new array: it shows the copied elements, and every slice
    that was there before shows what it showed and lies elsewhere. *)
Lemma alloc_copy h arr :
  let s' := {| memory.array := Some (length h); memory.len := length arr;
               memory.cap := length arr |} in
  memory.elements (h ++ [arr]) s' = arr ∧
  memory.valid (h ++ [arr]) s' ∧
  ∀ s0, memory.valid h s0 →
        memory.elements (h ++ [arr]) s0 = memory.elements h s0 ∧
        memory.valid (h ++ [arr]) s0 ∧ memory.apart s' s0.
Proof.
  simpl. split_and!.
  - unfold memory.elements. simpl.
    rewrite lookup_app_r, Nat.sub_diag by done. simpl. by rewrite firstn_all.
  - unfold memory.valid. simpl. exists arr.
    rewrite lookup_app_r, Nat.sub_diag by done. done.
  - intros s0 Hs0. split_and!.
    + by apply elements_alloc.
    + by apply valid_alloc.
    + by apply apart_fresh.
Qed.

Lemma slices_Clone_spec h s :
  memory.valid h s →
  memory.elements (memory.slices_Clone h s).1 (memory.slices_Clone h s).2
    = memory.elements h s ∧
  memory.valid (memory.slices_Clone h s).1 (memory.slices_Clone h s).2 ∧
  ∀ s0, memory.valid h s0 →
        memory.elements (memory.slices_Clone h s).1 s0 = memory.elements h s0 ∧
        memory.valid (memory.slices_Clone h s).1 s0 ∧
        memory.apart (memory.slices_Clone h s).2 s0.
Proof.
  intros Hs. pose proof (valid_length_elements h s Hs) as Hlen.
  unfold memory.slices_Clone.
  destruct (memory.array s) as [l|] eqn:Harr; simpl.
  - destruct (alloc_copy h (memory.elements h s)) as (He & Hv & Hothers).
    rewrite Hlen in He, Hv, Hothers. done.
  - split_and!; [done|done|]. intros s0 Hs0. split_and!; [done|done|].
    unfold memory.apart. by rewrite Harr.
Qed.

Lemma append_spec h s x :
  memory.valid h s →
  memory.elements (memory.append zero h s x).1 (memory.append zero h s x).2
    = memory.elements h s ++ [x] ∧
  memory.valid (memory.append zero h s x).1 (memory.append zero h s x).2 ∧
  ∀ s0, memory.valid h s0 → memory.apart s s0 →
        memory.elements (memory.append zero h s x).1 s0 = memory.elements h s0 ∧
        memory.valid (memory.append zero h s x).1 s0 ∧
        memory.apart (memory.append zero h s x).2 s0.
Proof.
  intros Hs. pose proof (valid_length_elements h s Hs) as Hlen.
  assert (Hgrow :
    let newCap := memory.growslice_cap (memory.cap s) (S (memory.len s)) in
    let arr := memory.elements h s ++ [x] ++ replicate (newCap - S (memory.len s)) zero in
    let s' := {| memory.array := Some (length h); memory.len := S (memory.len s);
                 memory.cap := newCap |} in
    memory.elements (h ++ [arr]) s' = memory.elements h s ++ [x] ∧
    memory.valid (h ++ [arr]) s' ∧
    ∀ s0, memory.valid h s0 →
          memory.elements (h ++ [arr]) s0 = memory.elements h s0 ∧
          memory.valid (h ++ [arr]) s0 ∧ memory.apart s' s0).
  { simpl. unfold memory.growslice_cap. split_and!.
    - unfold memory.elements at 1. simpl.
      rewrite lookup_app_r, Nat.sub_diag by done. simpl.
      rewrite cons_middle, (app_assoc _ [x]). rewrite take_app_length'; [done|].
      rewrite length_app. simpl. lia.
    - unfold memory.valid. simpl. eexists.
      rewrite lookup_app_r, Nat.sub_diag by done. split; [done|].
      rewrite length_app. simpl. rewrite length_replicate. lia.
    - intros s0 Hs0. split_and!.
      + by apply elements_alloc.
      + by apply valid_alloc.
      + by apply apart_fresh. }
  cbv zeta in Hgrow. destruct Hgrow as (Hg1 & Hg2 & Hg3).
  unfold memory.append, memory.alloc.
  destruct (memory.array s) as [l|] eqn:Harr;
    [|by split_and!; [..|intros s0 Hs0 _; apply Hg3]].
  destruct (decide (memory.len s < memory.cap s)%nat) as [Hlt|_];
    [|by split_and!; [..|intros s0 Hs0 _; apply Hg3]].
  clear Hg1 Hg2 Hg3. simpl.
  unfold memory.valid in Hs. rewrite Harr in Hs.
  destruct Hs as (arr & Hl & Hcap & Hle).
  split_and!.
  - unfold memory.elements. simpl. rewrite Harr.
    rewrite list_lookup_alter_eq, Hl. simpl.
    rewrite (take_S_r _ _ x) by (apply list_lookup_insert_eq; lia).
    by rewrite take_insert_ge by lia.
  - unfold memory.valid. simpl. eexists.
    rewrite list_lookup_alter_eq, Hl. simpl. split; [done|].
    rewrite length_insert. lia.
  - intros s0 Hs0 Hapart. unfold memory.apart in Hapart. rewrite Harr in Hapart.
    unfold memory.elements, memory.valid, memory.apart in *. simpl.
    destruct (memory.array s0) as [l0|]; [|done].
    rewrite list_lookup_alter_ne by done. done.
Qed.

Lemma assign_spec h s i x h' :
  memory.assign h s i x = Returns h' →
  memory.valid h s →
  memory.valid h' s ∧
  ∀ s0, memory.valid h s0 → memory.apart s s0 →
        memory.elements h' s0 = memory.elements h s0 ∧ memory.valid h' s0.
Proof.
  unfold memory.assign, memory.valid at 1 2.
  destruct (memory.array s) as [l|] eqn:Harr; [|done].
  destruct (decide (i < memory.len s)%nat) as [Hlt|]; [|done].
  intros [= <-] (arr & Hl & Hcap & Hle). split.
  - eexists. rewrite list_lookup_alter_eq, Hl. simpl. split; [done|].
    rewrite length_insert. lia.
  - intros s0 Hs0 Hapart. unfold memory.apart in Hapart. rewrite Harr in Hapart.
    unfold memory.elements, memory.valid in *.
    destruct (memory.array s0) as [l0|]; [|done].
    rewrite list_lookup_alter_ne by done. done.
Qed.

End slice_facts.

Lemma apart_sym (s1 s2 : memory.slice) : memory.apart s1 s2 → memory.apart s2 s1.
Proof.
  unfold memory.apart.
  destruct (memory.array s1), (memory.array s2); done.
Qed.

Lemma separate_sym (a b : memory.Derived) : memory.separate a b → memory.separate b a.
Proof. intros (? & ? & ?). split_and!; by apply apart_sym. Qed.

(** A mutation of one node's slices leaves a node on other backing arrays as
    it was, keeps both nodes well formed and keeps them on different arrays. *)
Lemma mutate_frame (st st' : memory.Store) (a a' b : memory.Derived)
    (m : memory.Mutation) :
  memory.onSlices m →
  memory.validNode st a → memory.validNode st b → memory.separate a b →
  memory.mutate st a m = Returns (st', a') →
  memory.observe st' b = memory.observe st b ∧
  memory.validNode st' a' ∧ memory.validNode st' b ∧ memory.separate a' b.
Proof.
  intros Hm (Hac & Hao & Haa) (Hbc & Hbo & Hba) (Sc & So & Sa).
  unfold memory.observe, memory.validNode, memory.separate, memory.deref.
  destruct m as [p|i p|z|i z|x|i x|i c]; [..|done]; simpl in *.
  - destruct (append_spec None _ _ p Hac) as (_ & Hv & Hfr).
    destruct (Hfr _ Hbc Sc) as (He & Hvb & Hap).
    destruct (memory.append _ _ _ _) as [h s]. intros [= <- <-]. simpl in *.
    by rewrite He.
  - destruct (memory.assign _ _ _ _) as [h|] eqn:Has; [|done].
    destruct (assign_spec _ _ _ _ _ Has Hac) as (Hv & Hfr).
    destruct (Hfr _ Hbc Sc) as (He & Hvb).
    intros [= <- <-]. simpl. by rewrite He.
  - destruct (append_spec 0 _ _ z Hao) as (_ & Hv & Hfr).
    destruct (Hfr _ Hbo So) as (He & Hvb & Hap).
    destruct (memory.append _ _ _ _) as [h s]. intros [= <- <-]. simpl in *.
    by rewrite He.
  - destruct (memory.assign _ _ _ _) as [h|] eqn:Has; [|done].
    destruct (assign_spec _ _ _ _ _ Has Hao) as (Hv & Hfr).
    destruct (Hfr _ Hbo So) as (He & Hvb).
    intros [= <- <-]. simpl. by rewrite He.
  - destruct (append_spec (NewIdentifierCI "") _ _ x Haa) as (_ & Hv & Hfr).
    destruct (Hfr _ Hba Sa) as (He & Hvb & Hap).
    destruct (memory.append _ _ _ _) as [h s]. intros [= <- <-]. simpl in *.
    by rewrite He.
  - destruct (memory.assign _ _ _ _) as [h|] eqn:Has; [|done].
    destruct (assign_spec _ _ _ _ _ Has Haa) as (Hv & Hfr).
    destruct (Hfr _ Hba Sa) as (He & Hvb).
    intros [= <- <-]. simpl. by rewrite He.
Qed.

Lemma mutateAll_frame (ms : list memory.Mutation) (st st' : memory.Store)
    (a a' b : memory.Derived) :
  Forall memory.onSlices ms →
  memory.validNode st a → memory.validNode st b → memory.separate a b →
  memory.mutateAll st a ms = Returns (st', a') →
  memory.observe st' b = memory.observe st b.
Proof.
  intros Hms. revert st a.
  induction Hms as [|m ms Hm _ IH]; intros st a Ha Hb Hsep; simpl.
  - by intros [= <- <-].
  - destruct (memory.mutate st a m) as [[st1 a1]|] eqn:Hmut; [|done].
    destruct (mutate_frame _ _ _ _ _ _ Hm Ha Hb Hsep Hmut) as (Hobs & Ha1 & Hb1 & Hsep1).
    intros Hrest. rewrite <- Hobs. by apply (IH st1 a1).
Qed.

Lemma CloneColumns_spec (h : list (list IdentifierCI)) (s : memory.slice) :
  memory.valid h s →
  memory.elements (memory.CloneColumns h s).1 (memory.CloneColumns h s).2
    = memory.elements h s ∧
  memory.valid (memory.CloneColumns h s).1 (memory.CloneColumns h s).2 ∧
  ∀ s0, memory.valid h s0 →
        memory.elements (memory.CloneColumns h s).1 s0 = memory.elements h s0 ∧
        memory.valid (memory.CloneColumns h s).1 s0 ∧
        memory.apart (memory.CloneColumns h s).2 s0.
Proof.
  intros Hs. pose proof (valid_length_elements h s Hs) as Hlen.
  unfold memory.CloneColumns.
  destruct (memory.array s) as [l|] eqn:Harr; simpl.
  - pose proof (CloneColumns_id (memory.elements h s)) as Hid.
    unfold CloneColumns in Hid. rewrite Hid.
    destruct (alloc_copy h (memory.elements h s)) as (He & Hv & Hothers).
    rewrite Hlen in He, Hv, Hothers. done.
  - split_and!; [done|done|]. intros s0 Hs0. split_and!; [done|done|].
    unfold memory.apart. by rewrite Harr.
Qed.

(** The clone in memory: same contents, three backing arrays of its own, and
    in [Columns] the very pointers of the original. *)
Lemma Clone_memory_spec (st : memory.Store) (d : memory.Derived)
    (in0 : option Operator) (rest : list (option Operator)) :
  memory.validNode st d →
  ∃ st' c,
    memory.Clone st d (in0 :: rest) = Returns (st', c) ∧
    memory.colNames st' = memory.colNames st ∧
    memory.elements (memory.ptrArrays st') (memory.Columns c)
      = memory.elements (memory.ptrArrays st) (memory.Columns d) ∧
    memory.elements (memory.intArrays st') (memory.ColumnsOffset c)
      = memory.elements (memory.intArrays st) (memory.ColumnsOffset d) ∧
    memory.elements (memory.identArrays st') (memory.ColumnAliases c)
      = memory.elements (memory.identArrays st) (memory.ColumnAliases d) ∧
    memory.observe st' d = memory.observe st d ∧
    memory.validNode st' c ∧ memory.validNode st' d ∧ memory.separate c d ∧
    memory.Source c = in0 ∧ memory.Query c = memory.Query d ∧
    memory.Alias c = memory.Alias d ∧ memory.TableId c = memory.TableId d ∧
    memory.QP c = None.
Proof.
  intros (Hc & Ho & Ha). unfold memory.Clone.
  destruct (CloneColumns_spec _ _ Ha) as (Ea & Va & Fa).
  destruct (slices_Clone_spec _ _ Hc) as (Ec & Vc & Fc).
  destruct (slices_Clone_spec _ _ Ho) as (Eo & Vo & Fo).
  destruct (Fa _ Ha) as (Ea' & Va' & Aa).
  destruct (Fc _ Hc) as (Ec' & Vc' & Ac).
  destruct (Fo _ Ho) as (Eo' & Vo' & Ao).
  destruct (memory.CloneColumns _ _) as [idents aliases].
  destruct (memory.slices_Clone (memory.ptrArrays st) _) as [ptrs columns].
  destruct (memory.slices_Clone (memory.intArrays st) _) as [ints offsets].
  simpl in *. eexists _, _. split; [reflexivity|]. simpl.
  unfold memory.observe, memory.validNode, memory.separate, memory.deref. simpl.
  rewrite Ec', Eo', Ea'. by split_and!.
Qed.

(** C7, as amended: [Clone] returns a node whose [Columns], [ColumnsOffset]
    and [ColumnAliases] hold the original's elements on backing arrays of
    their own, so that appending to, or assigning an element of, the slices
    of one node leaves what the other node shows unchanged, in both
    directions; the entries of the clone's [Columns] are the original's
    pointers, to the same [ColName] objects; [Query], [Alias] and [TableId]
    are carried over and [Source] is [inputs[0]]. *)
Theorem Clone_shares_no_backing_array (st : memory.Store) (d : memory.Derived)
    (in0 : option Operator) (rest : list (option Operator)) :
  memory.validNode st d →
  ∃ st' c,
    memory.Clone st d (in0 :: rest) = Returns (st', c) ∧
    memory.observe st' c = memory.observe st d ∧
    memory.observe st' d = memory.observe st d ∧
    memory.separate c d ∧
    memory.elements (memory.ptrArrays st') (memory.Columns c)
      = memory.elements (memory.ptrArrays st) (memory.Columns d) ∧
    memory.Source c = in0 ∧ memory.Query c = memory.Query d ∧
    memory.Alias c = memory.Alias d ∧ memory.TableId c = memory.TableId d ∧
    (∀ ms st2 c2, Forall memory.onSlices ms →
       memory.mutateAll st' c ms = Returns (st2, c2) →
       memory.observe st2 d = memory.observe st d) ∧
    (∀ ms st2 d2, Forall memory.onSlices ms →
       memory.mutateAll st' d ms = Returns (st2, d2) →
       memory.observe st2 c = memory.observe st d).
Proof.
  intros Hd.
  destruct (Clone_memory_spec st d in0 rest Hd)
    as (st' & c & Hclone & Hnames & Ec & Eo & Ea & Hobs & Vc & Vd & Hsep & Hfields).
  assert (Hobs_c : memory.observe st' c = memory.observe st d).
  { unfold memory.observe, memory.deref. by rewrite Ec, Eo, Ea, Hnames. }
  exists st', c. destruct Hfields as (? & ? & ? & ? & _).
  split_and!; try done.
  - intros ms st2 c2 Hms Hrun. rewrite <- Hobs.
    by apply (mutateAll_frame ms st' st2 c c2 d).
  - intros ms st2 d2 Hms Hrun. rewrite <- Hobs_c.
    apply (mutateAll_frame ms st' st2 d d2 c); try done.
    by apply separate_sym.
Qed.

Lemma exampleNode_valid : memory.validNode memory.exampleStore memory.exampleNode.
Proof.
  unfold memory.validNode, memory.valid. simpl. split_and!.
  - exists [Some 0%nat]. split_and!; [reflexivity|reflexivity|lia].
  - exists [0; 0]. split_and!; [reflexivity|reflexivity|lia].
  - reflexivity.
  - reflexivity.
Defined.

Lemma Clone_shares_no_backing_array_witness :
  ∃ st' c,
    memory.Clone memory.exampleStore memory.exampleNode [Some (OtherOp 1)]
      = Returns (st', c) ∧
    memory.observe st' c = memory.observe memory.exampleStore memory.exampleNode ∧
    (∀ ms st2 c2, Forall memory.onSlices ms →
       memory.mutateAll st' c ms = Returns (st2, c2) →
       memory.observe st2 memory.exampleNode
         = memory.observe memory.exampleStore memory.exampleNode).
Proof.
  destruct (Clone_shares_no_backing_array memory.exampleStore memory.exampleNode
              (Some (OtherOp 1)) [] exampleNode_valid)
    as (st' & c & Hclone & Hobs & _ & _ & _ & _ & _ & _ & _ & Hmut & _).
  exists st', c. split; [exact Hclone|]. split; [exact Hobs|exact Hmut].
Defined.

(** C7 as stated fails for [Columns]: the clone's entries are the original's
    pointers, and a write through entry 0 of the clone's [Columns] changes
    the column the original shows at entry 0. *)
Lemma Clone_shares_column_objects :
  let st' := {| memory.colNames := [fixtures.col "dt" "a"];
                memory.ptrArrays := [[Some 0%nat]; [Some 0%nat]];
                memory.intArrays := [[0; 0]; [0]];
                memory.identArrays := [] |} in
  let c := {| memory.Source := Some (OtherOp 1); memory.TableId := 1%N;
              memory.QP := None; memory.Query := fixtures.selectA;
              memory.Alias := "dt"%string;
              memory.ColumnAliases := memory.mkSlice None 0 0;
              memory.Columns := memory.mkSlice (Some 1%nat) 1 1;
              memory.ColumnsOffset := memory.mkSlice (Some 1%nat) 1 1 |} in
  memory.Clone memory.exampleStore memory.exampleNode [Some (OtherOp 1)]
    = Returns (st', c) ∧
  memory.elements (memory.ptrArrays st') (memory.Columns c)
    = memory.elements (memory.ptrArrays st') (memory.Columns memory.exampleNode) ∧
  memory.observe st' memory.exampleNode
    = ([Some (fixtures.col "dt" "a")], [0], []) ∧
  ∃ st2,
    memory.mutate st' c (memory.AssignThroughColumns 0 (fixtures.col "dt" "b"))
      = Returns (st2, c) ∧
    memory.observe st2 memory.exampleNode
      = ([Some (fixtures.col "dt" "b")], [0], []) ∧
    memory.observe st2 memory.exampleNode ≠ memory.observe st' memory.exampleNode.
Proof.
  cbv zeta. split; [reflexivity|]. split; [reflexivity|]. split; [reflexivity|].
  eexists. split; [reflexivity|]. split; [reflexivity|].
  intros Heq. vm_compute in Heq. discriminate Heq.
Qed.

(** The memory-level [Clone] computes the value-level one. *)
Lemma Clone_refines (st st' : memory.Store) (d c : memory.Derived)
    (in0 : option Operator) (rest : list (option Operator)) :
  memory.validNode st d →
  memory.Clone st d (in0 :: rest) = Returns (st', c) →
  memory.load st' c =
  v ← memory.load st d;
  match Clone v (in0 :: rest) with
  | Returns c' => Some c'
  | Panics _ => None
  end.
Proof.
  intros Hd Hclone.
  destruct (Clone_memory_spec st d in0 rest Hd)
    as (st1 & c1 & Hclone1 & Hnames & Ec & Eo & Ea & _ & _ & _ & _
        & Hs & Hq & Hal & Ht & Hqp).
  rewrite Hclone in Hclone1. injection Hclone1 as <- <-.
  unfold memory.load, memory.deref. rewrite Ec, Eo, Ea, Hnames, Hs, Hq, Hal, Ht, Hqp.
  destruct (mapM _ _) as [cols|]; simpl; [|done].
  by rewrite CloneColumns_id.
Qed.

(** * Further properties of column resolution *)

(** The scan either walks past every item, or stops at a first item that
    matches or that needs an alias. *)
Lemma first_stop (name : ColName) (exprs : list SelectExpr) :
  Forall (passed name) exprs ∨
  ∃ pre item post,
    exprs = pre ++ item :: post ∧ Forall (passed name) pre ∧
    (matches name item = true ∨ needsAlias item = true).
Proof.
  induction exprs as [|item rest IH]; [by left|].
  destruct (matches name item) eqn:Hm.
  { right. exists [], item, rest. split_and!; [done|constructor|by left]. }
  destruct (needsAlias item) eqn:Hn.
  { right. exists [], item, rest. split_and!; [done|constructor|by right]. }
  destruct IH as [Hall|(pre & it & post & -> & Hpre & Hstop)].
  - left. by constructor.
  - right. exists (item :: pre), it, post. split_and!; [done| |done].
    by constructor.
Qed.

Lemma lookup_middle_take {A : Type} (pre post : list A) (x : A) :
  (pre ++ x :: post) !! length pre = Some x ∧
  take (length pre) (pre ++ x :: post) = pre.
Proof.
  split.
  - by rewrite lookup_app_r, Nat.sub_diag.
  - by rewrite take_app_length.
Qed.

(** Every way a call of [findOutputColumn] can go. *)
Lemma findOutputColumn_cases (d : Derived) (name : ColName) :
  (Forall (passed name) (GetFirstSelect (Query d)) ∧
   findOutputColumn d name =
   if existsb isStar (GetFirstSelect (Query d)) then (-1, None)
   else (0, Some (VT03014 (IdentString (Name name)) "field list"))) ∨
  (∃ (n : nat) item,
     GetFirstSelect (Query d) !! n = Some item ∧
     Forall (passed name) (take n (GetFirstSelect (Query d))) ∧
     ((matches name item = true ∧
       findOutputColumn d name = (Z.of_nat n, None)) ∨
      (∃ exp, item = IsAliasedExpr exp ∧ needsAlias item = true ∧
              findOutputColumn d name =
              (0, Some (VT12001 "complex expression needs column alias: %s" exp))))).
Proof.
  destruct (first_stop name (GetFirstSelect (Query d)))
    as [Hall|(pre & item & post & Hq & Hpre & Hstop)].
  - left. split; [done|]. by apply findOutputColumn_unmatched.
  - right. exists (length pre), item. rewrite Hq.
    destruct (lookup_middle_take pre post item) as [-> ->].
    split_and!; [done|done|].
    destruct Hstop as [Hm|Hn].
    + left. split; [done|]. by apply (findOutputColumn_first_match d name pre item post).
    + right. destruct item as [exp| |e]; try done. exists exp.
      split_and!; [done|done|].
      unfold findOutputColumn. rewrite Hq.
      rewrite findOutputColumn_loop_passed by done.
      by apply findOutputColumn_loop_needsAlias.
Qed.

(** X1: a successful [findOutputColumn] answers either -1, and then the
    select list has a [StarExpr] and no item matches, or the index of an
    item of the select list that matches the name, no item before it
    matching; so the answer is never below -1 nor beyond the select list. *)
Theorem findOutputColumn_index_sound (d : Derived) (name : ColName) (i : Z) :
  findOutputColumn d name = (i, None) →
  ((i = -1 ∧ existsb isStar (GetFirstSelect (Query d)) = true ∧
    Forall (passed name) (GetFirstSelect (Query d))) ∨
   (∃ (n : nat) item,
      i = Z.of_nat n ∧ GetFirstSelect (Query d) !! n = Some item ∧
      matches name item = true ∧
      Forall (passed name) (take n (GetFirstSelect (Query d))))) ∧
  -1 ≤ i < Z.of_nat (length (GetFirstSelect (Query d))).
Proof.
  intros Hfind.
  destruct (findOutputColumn_cases d name)
    as [[Hall Hres]|(n & item & Hn & Hpre & [[Hm Hres]|(exp & _ & _ & Hres)])];
    rewrite Hres in Hfind.
  - destruct (existsb isStar _) eqn:Hstar; [|done]. injection Hfind as <-.
    split; [by left|]. lia.
  - injection Hfind as <-. split; [right; by exists n, item|].
    apply lookup_lt_Some in Hn. lia.
  - done.
Qed.

Lemma findOutputColumn_index_sound_witness :
  -1 ≤ 1 < Z.of_nat (length (GetFirstSelect fixtures.selectStarTotal)) ∧
  -1 ≤ -1 < Z.of_nat (length (GetFirstSelect fixtures.selectStarTotal)).
Proof.
  split.
  - exact (proj2 (findOutputColumn_index_sound
                    (fixtures.derivedOver fixtures.selectStarTotal)
                    (fixtures.col "dt" "total") 1 eq_refl)).
  - exact (proj2 (findOutputColumn_index_sound
                    (fixtures.derivedOver fixtures.selectStarTotal)
                    (fixtures.col "dt" "y") (-1) eq_refl)).
Defined.

(** X2: a failing [findOutputColumn] answers index 0 and one of two errors:
    the unknown-column error for "field list", and then the select list has
    no [StarExpr] and no item matches; or the complex-expression error naming
    an alias-less item that is not a bare column, no item before it matching. *)
Theorem findOutputColumn_error_cases (d : Derived) (name : ColName) (i : Z) (e : Error) :
  findOutputColumn d name = (i, Some e) →
  i = 0 ∧
  ((e = VT03014 (IdentString (Name name)) "field list" ∧
    existsb isStar (GetFirstSelect (Query d)) = false ∧
    Forall (passed name) (GetFirstSelect (Query d))) ∨
   (∃ (n : nat) exp,
      GetFirstSelect (Query d) !! n = Some (IsAliasedExpr exp) ∧
      needsAlias (IsAliasedExpr exp) = true ∧
      Forall (passed name) (take n (GetFirstSelect (Query d))) ∧
      e = VT12001 "complex expression needs column alias: %s" exp)).
Proof.
  intros Hfind.
  destruct (findOutputColumn_cases d name)
    as [[Hall Hres]|(n & item & Hn & Hpre & [[Hm Hres]|(exp & -> & Hna & Hres)])];
    rewrite Hres in Hfind.
  - destruct (existsb isStar _) eqn:Hstar; [done|]. injection Hfind as <- <-.
    split; [done|]. by left.
  - done.
  - injection Hfind as <- <-. split; [done|]. right. by exists n, exp.
Qed.

Lemma findOutputColumn_error_cases_witness :
  (0 = 0 ∧
   ((VT03014 "c" "field list" = VT03014 (IdentString (Name (fixtures.col "dt" "c")))
                                  "field list" ∧
     existsb isStar (GetFirstSelect fixtures.selectAB) = false ∧
     Forall (passed (fixtures.col "dt" "c")) (GetFirstSelect fixtures.selectAB)) ∨
    (∃ (n : nat) exp,
       GetFirstSelect fixtures.selectAB !! n = Some (IsAliasedExpr exp) ∧
       needsAlias (IsAliasedExpr exp) = true ∧
       Forall (passed (fixtures.col "dt" "c")) (take n (GetFirstSelect fixtures.selectAB)) ∧
       VT03014 "c" "field list" =
       VT12001 "complex expression needs column alias: %s" exp))).
Proof.
  exact (findOutputColumn_error_cases (fixtures.derivedOver fixtures.selectAB)
           (fixtures.col "dt" "c") 0 (VT03014 "c" "field list") eq_refl).
Defined.

Lemma findOutputColumn_loop_qualifier (q q' : string) (n : IdentifierCI)
    (exprs : list SelectExpr) (j : Z) (hasStar : bool) :
  findOutputColumn_loop {| Qualifier := q; Name := n |} exprs j hasStar =
  findOutputColumn_loop {| Qualifier := q'; Name := n |} exprs j hasStar.
Proof.
  revert j hasStar.
  induction exprs as [|[exp| |e] rest IH]; intros j hasStar; simpl; [done|..|done|done].
  destruct (negb (IsEmpty (As exp)) && Equal (As exp) n); [done|].
  destruct (IsEmpty (As exp)); [|done].
  destruct (ae_Expr exp); [|done].
  by destruct (Equal n (Name c)).
Qed.

(** X3: [findOutputColumn] looks at the name of the requested column only:
    two requests that differ in the qualifier get the same answer. *)
Theorem findOutputColumn_ignores_qualifier (d : Derived) (q q' : string)
    (n : IdentifierCI) :
  findOutputColumn d {| Qualifier := q; Name := n |} =
  findOutputColumn d {| Qualifier := q'; Name := n |}.
Proof. apply findOutputColumn_loop_qualifier. Qed.

(** * GetColumns *)

Lemma GetColumns_loop_aliased (err : Error) (aes exprs : list AliasedExpr) :
  GetColumns_loop err (map IsAliasedExpr aes) exprs = (exprs ++ aes, None).
Proof.
  revert exprs. induction aes as [|ae aes IH]; intros exprs; simpl.
  - by rewrite app_nil_r.
  - by rewrite IH, <- app_assoc.
Qed.

Lemma GetColumns_loop_other (err : Error) (selectExprs : list SelectExpr)
    (exprs : list AliasedExpr) :
  forallb isAliased selectExprs = false →
  GetColumns_loop err selectExprs exprs = ([], Some err).
Proof.
  revert exprs. induction selectExprs as [|[ae| |e] rest IH]; intros exprs; simpl;
    [done| |done|done].
  apply IH.
Qed.

Lemma all_aliased (selectExprs : list SelectExpr) :
  forallb isAliased selectExprs = true →
  ∃ aes, selectExprs = map IsAliasedExpr aes.
Proof.
  induction selectExprs as [|[ae| |e] rest IH]; simpl; [by exists []| |done|done].
  intros (aes & ->)%IH. by exists (ae :: aes).
Qed.

(** X4: [GetColumns] succeeds exactly when every item of the first select is
    an aliased expression, and then returns them all, in order; as soon as
    there is another item (a [StarExpr], say) it returns no expressions and
    the error of [errHorizonNotPlanned]. *)
Theorem GetColumns_all_or_nothing (err : Error) (d : Derived) :
  (forallb isAliased (GetFirstSelect (Query d)) = true →
     ∃ aes, GetColumns err d = (aes, None) ∧
            map IsAliasedExpr aes = GetFirstSelect (Query d)) ∧
  (forallb isAliased (GetFirstSelect (Query d)) = false →
     GetColumns err d = ([], Some err)).
Proof.
  unfold GetColumns. split.
  - intros (aes & ->)%all_aliased. exists aes.
    by rewrite GetColumns_loop_aliased.
  - apply GetColumns_loop_other.
Qed.

Lemma GetColumns_all_or_nothing_witness :
  (∃ aes, GetColumns (Foreign 0) (fixtures.derivedOver fixtures.selectAB) = (aes, None) ∧
          map IsAliasedExpr aes = GetFirstSelect fixtures.selectAB) ∧
  GetColumns (Foreign 0) (fixtures.derivedOver fixtures.selectStarTotal)
    = ([], Some (Foreign 0)).
Proof.
  split.
  - exact (proj1 (GetColumns_all_or_nothing (Foreign 0)
                    (fixtures.derivedOver fixtures.selectAB)) eq_refl).
  - exact (proj2 (GetColumns_all_or_nothing (Foreign 0)
                    (fixtures.derivedOver fixtures.selectStarTotal)) eq_refl).
Defined.

(** X5: over a query whose columns [GetColumns] can list, a name that
    [findOutputColumn] resolves is resolved to the position, in that list,
    of an expression that answers to the name; never to -1. *)
Theorem findOutputColumn_within_GetColumns (err : Error) (d : Derived)
    (name : ColName) (aes : list AliasedExpr) (i : Z) :
  GetColumns err d = (aes, None) →
  findOutputColumn d name = (i, None) →
  ∃ (n : nat) exp,
    i = Z.of_nat n ∧ aes !! n = Some exp ∧
    matches name (IsAliasedExpr exp) = true.
Proof.
  intros Hcols Hfind.
  destruct (forallb isAliased (GetFirstSelect (Query d))) eqn:Hall.
  - unfold GetColumns in Hcols.
    destruct (all_aliased _ Hall) as (aes' & Hq).
    rewrite Hq, GetColumns_loop_aliased in Hcols. injection Hcols as <-.
    destruct (findOutputColumn_cases d name)
      as [[_ Hres]|(n & item & Hn & _ & [[Hm Hres]|(exp & _ & _ & Hres)])];
      rewrite Hres in Hfind.
    + rewrite Hq in Hfind.
      assert (Hnostar : existsb isStar (map IsAliasedExpr aes') = false).
      { clear. by induction aes'. }
      by rewrite Hnostar in Hfind.
    + injection Hfind as <-. rewrite Hq, list_lookup_fmap in Hn.
      destruct (aes' !! n) as [exp|] eqn:Hexp; [|done].
      injection Hn as <-. by exists n, exp.
    + done.
  - unfold GetColumns in Hcols.
    by rewrite (GetColumns_loop_other err _ [] Hall) in Hcols.
Qed.

Lemma findOutputColumn_within_GetColumns_witness :
  ∃ (n : nat) exp,
    1 = Z.of_nat n ∧
    [ {| ae_Expr := ColNameExpr (fixtures.col "" "a"); As := NewIdentifierCI "x" |};
      {| ae_Expr := ColNameExpr (fixtures.col "" "b"); As := NewIdentifierCI "" |} ]
      !! n = Some exp ∧
    matches (fixtures.col "dt" "B") (IsAliasedExpr exp) = true.
Proof.
  exact (findOutputColumn_within_GetColumns (Foreign 0)
           (fixtures.derivedOver fixtures.selectAxB) (fixtures.col "dt" "B")
           _ 1 eq_refl eq_refl).
Defined.

(** * Further properties of the column utilities *)

(** X6: [canReuseColumn] answers the position of the first column the
    context's test finds equal to the requested one; it answers not-found,
    with offset 0, exactly when the test finds none. *)
Theorem canReuseColumn_first_equal {T : Type} (ctx : PlanningContext)
    (columns : list T) (col : Expr) (f : T → Expr) (offset : Z) (found : bool) :
  canReuseColumn ctx columns col f = (offset, found) →
  if found then
    ∃ (n : nat) column,
      offset = Z.of_nat n ∧ columns !! n = Some column ∧
      EqualsExprWithDeps (SemTable ctx) col (f column) = true ∧
      Forall (λ c, EqualsExprWithDeps (SemTable ctx) col (f c) = false)
             (take n columns)
  else
    offset = 0 ∧
    Forall (λ c, EqualsExprWithDeps (SemTable ctx) col (f c) = false) columns.
Proof.
  unfold canReuseColumn. intros Hloop%canReuseColumn_loop_inv.
  destruct found; [|by destruct Hloop].
  destruct Hloop as (pre & c & post & -> & Hpre & Hc & ->).
  exists (length pre), c.
  destruct (lookup_middle_take pre post c) as [-> ->]. by split_and!.
Qed.

Lemma canReuseColumn_first_equal_witness :
  ∃ (n : nat) column,
    1 = Z.of_nat n ∧
    [fixtures.col "dt" "a"; fixtures.col "" "a"; fixtures.col "" "A"] !! n
      = Some column ∧
    EqualsExprWithDeps (SemTable fixtures.oneTable)
      (ColNameExpr (fixtures.col "" "a")) (ColNameExpr column) = true ∧
    Forall (λ c, EqualsExprWithDeps (SemTable fixtures.oneTable)
                   (ColNameExpr (fixtures.col "" "a")) (ColNameExpr c) = false)
           (take n [fixtures.col "dt" "a"; fixtures.col "" "a"; fixtures.col "" "A"]).
Proof.
  exact (canReuseColumn_first_equal fixtures.oneTable
           [fixtures.col "dt" "a"; fixtures.col "" "a"; fixtures.col "" "A"]
           (ColNameExpr (fixtures.col "" "a")) ColNameExpr 1 true eq_refl).
Defined.

Lemma addToIntSlice_loop_first (l : list Z) (v k idx : Z) :
  addToIntSlice_loop l v k = Some idx →
  ∃ n : nat, idx = k + Z.of_nat n ∧ l !! n = Some v ∧ v ∉ take n l.
Proof.
  revert k. induction l as [|x l IH]; intros k; simpl; [done|].
  destruct (Z.eqb_spec x v) as [->|Hne].
  - intros [= <-]. exists 0%nat. split_and!; [lia|done|]. apply not_elem_of_nil.
  - intros (n & -> & Hn & Hni)%IH. exists (S n). split_and!; [lia|done|].
    simpl. apply not_elem_of_cons. split; [congruence|done].
Qed.

Lemma addToIntSlice_loop_grown (l more : list Z) (v k idx : Z) :
  addToIntSlice_loop l v k = Some idx →
  addToIntSlice_loop (l ++ more) v k = Some idx.
Proof.
  revert k. induction l as [|x l IH]; intros k; simpl; [done|].
  destruct (x =? v); [done|]. apply IH.
Qed.

(** X7: [addToIntSlice] returns the list it was given, or that list with the
    value added at the end when the value was absent, and the position of
    the first slot that holds the value. *)
Theorem addToIntSlice_first_slot (l : list Z) (v : Z) :
  (fst (addToIntSlice l v) = l ∧ v ∈ l ∨
   fst (addToIntSlice l v) = l ++ [v] ∧ v ∉ l) ∧
  ∃ n : nat,
    snd (addToIntSlice l v) = Z.of_nat n ∧
    fst (addToIntSlice l v) !! n = Some v ∧
    v ∉ take n (fst (addToIntSlice l v)).
Proof.
  unfold addToIntSlice.
  destruct (addToIntSlice_loop l v 0) as [idx|] eqn:Hloop; simpl.
  - destruct (addToIntSlice_loop_first _ _ _ _ Hloop) as (n & -> & Hn & Hni).
    split.
    + left. split; [done|]. by eapply list_elem_of_lookup_2.
    + exists n. split_and!; [lia|done|done].
  - apply addToIntSlice_loop_None in Hloop. split; [by right|].
    exists (length l). split_and!.
    + rewrite length_app. simpl. lia.
    + by rewrite lookup_app_r, Nat.sub_diag.
    + by rewrite take_app_length.
Qed.

(** X8: the positions [addToIntSlice] hands out stay good: asking again for
    the value just added, or for a value that was in the list before another
    one was added, changes nothing and returns the position of before. *)
Theorem addToIntSlice_positions_stable (l : list Z) (v w : Z) :
  addToIntSlice (fst (addToIntSlice l v)) v = addToIntSlice l v ∧
  (w ∈ l →
   addToIntSlice (fst (addToIntSlice l v)) w =
   (fst (addToIntSlice l v), snd (addToIntSlice l w))).
Proof.
  split; [apply addToIntSlice_again|].
  intros Hw.
  assert (Hsome : ∃ idx, addToIntSlice_loop l w 0 = Some idx).
  { destruct (addToIntSlice_loop l w 0) as [idx|] eqn:Hloop; [by eexists|].
    by apply addToIntSlice_loop_None in Hloop. }
  destruct Hsome as [idx Hidx].
  assert (Hw_l : addToIntSlice l w = (l, idx)).
  { unfold addToIntSlice. by rewrite Hidx. }
  rewrite Hw_l. simpl.
  unfold addToIntSlice at 2 3.
  destruct (addToIntSlice_loop l v 0) as [idv|]; simpl; [done|].
  unfold addToIntSlice. by rewrite (addToIntSlice_loop_grown l [v] w 0 idx Hidx).
Qed.

Lemma addToIntSlice_positions_stable_witness :
  addToIntSlice (fst (addToIntSlice [2; -1] 0)) (-1) = ([2; -1; 0], 1).
Proof.
  exact (proj2 (addToIntSlice_positions_stable [2; -1] 0 (-1))
           ltac:(apply list_elem_of_In; simpl; tauto)).
Defined.

(** * Further properties of AddColumn *)

(** Every way a call of [AddColumn] can return. *)
Lemma AddColumn_cases `{Collaborators} ctx (d d' : Derived) (expr : AliasedExpr)
    (reuse addToGroupBy : bool) (root : option Operator) (k : Z) (err : option Error) :
  AddColumn ctx d expr reuse addToGroupBy = Returns (d', (root, k, err)) →
  (* not a column *)
  ((∃ ty ch, ae_Expr expr = Node ty ch) ∧ d' = d ∧ root = None ∧ k = 0 ∧
   err = Some (VT13001 "cannot push non-colname expression to a derived table")) ∨
  (* served already *)
  (∃ col (n : nat) c,
     ae_Expr expr = ColNameExpr col ∧ Columns d !! n = Some c ∧
     EqualsExprWithDeps (SemTable ctx) (ColNameExpr col) (ColNameExpr c) = true ∧
     unseen ctx (take n (Columns d)) col ∧
     d' = d ∧ root = Some (DerivedOp d) ∧ k = Z.of_nat n ∧ err = None) ∨
  (* new, not resolved *)
  (∃ col i e,
     ae_Expr expr = ColNameExpr col ∧ unseen ctx (Columns d) col ∧
     findOutputColumn d col = (i, Some e) ∧
     d' = d ∧ root = None ∧ k = 0 ∧ err = Some e) ∨
  (* new, resolved to a select item *)
  (∃ col i,
     ae_Expr expr = ColNameExpr col ∧ unseen ctx (Columns d) col ∧
     findOutputColumn d col = (i, None) ∧ 0 ≤ i ∧
     d' = recorded d col i ∧ root = Some (DerivedOp d') ∧
     k = snd (addToIntSlice (ColumnsOffset d) i) ∧ err = None) ∨
  (* new, left to the star: the source is asked *)
  (∃ col src src' newSrc o e,
     ae_Expr expr = ColNameExpr col ∧ unseen ctx (Columns d) col ∧
     findOutputColumn d col = (-1, None) ∧ Source d = Some src ∧
     Source_AddColumn ctx src (forwardedColumn col) true addToGroupBy
       = (src', (newSrc, o, e)) ∧
     match e with
     | None => d' = withSource (recorded d col (-1)) newSrc ∧
               root = Some (DerivedOp d') ∧
               k = snd (addToIntSlice (ColumnsOffset d) (-1)) ∧ err = None
     | Some e' => d' = withSource (recorded d col (-1)) (Some src') ∧
                  root = None ∧ k = 0 ∧ err = Some e'
     end).
Proof.
  unfold AddColumn, canReuseColumn.
  destruct (ae_Expr expr) as [col|ty ch] eqn:He.
  2:{ intros [= <- <- <- <-]. left. split_and!; eauto. }
  destruct (canReuseColumn_loop ctx (Columns d) (ColNameExpr col)
              (λ c, ColNameExpr c) 0) as [offset found] eqn:Hreuse.
  apply canReuseColumn_loop_inv in Hreuse. destruct found.
  { destruct Hreuse as (pre & c & post & Hcols & Hpre & Hc & ->).
    intros [= <- <- <- <-]. right. left. exists col, (length pre), c.
    rewrite Hcols. destruct (lookup_middle_take pre post c) as [-> ->].
    by split_and!. }
  destruct Hreuse as [Hunseen _].
  destruct (findOutputColumn d col) as [i [e|]] eqn:Hfind.
  { intros [= <- <- <- <-]. right. right. left. exists col, i, e. by split_and!. }
  pose proof (findOutputColumn_cases d col) as Hrange.
  assert (Hi : i = -1 ∨ 0 ≤ i).
  { destruct Hrange as [[_ Hres]|(n & item & _ & _ & [[_ Hres]|(exp & _ & _ & Hres)])];
      rewrite Hres in Hfind.
    - destruct (existsb isStar _); [|done]. injection Hfind as <-. by left.
    - injection Hfind as <-. right. lia.
    - done. }
  destruct (addToIntSlice (ColumnsOffset d) i) as [offs pos] eqn:Hadd.
  assert (Hrec : withColumns (withColumnsOffset d offs) (Columns d ++ [col])
                 = recorded d col i).
  { unfold recorded. by rewrite Hadd. }
  assert (Hpos : pos = snd (addToIntSlice (ColumnsOffset d) i)) by by rewrite Hadd.
  clear Hadd. simpl. rewrite Hrec.
  destruct (Z.leb_spec i (-1)) as [Hle|Hgt].
  - assert (i = -1) as -> by lia.
    change (Source (recorded d col (-1))) with (Source d).
    destruct (Source d) as [src|] eqn:Hsrc; [|done].
    destruct (Source_AddColumn ctx src _ true addToGroupBy)
      as [src' [[newSrc o] e]] eqn:Hcall.
    intros Hret. right. right. right. right.
    exists col, src, src', newSrc, o, e. split_and!; try done.
    destruct e as [e'|]; injection Hret as <- <- <- <-; by split_and!.
  - intros [= <- <- <- <-]. right. right. right. left. exists col, i.
    split_and!; try done. lia.
Qed.

(** X9: a successful [AddColumn] returns the node itself, and, on a node
    whose [ColumnsOffset] is not longer than its [Columns], an offset that
    is a position of [Columns]; a failing one returns no operator and
    offset 0. *)
Theorem AddColumn_result_shape `{Collaborators} ctx (d d' : Derived)
    (expr : AliasedExpr) (reuse addToGroupBy : bool) (root : option Operator)
    (k : Z) (err : option Error) :
  AddColumn ctx d expr reuse addToGroupBy = Returns (d', (root, k, err)) →
  (length (ColumnsOffset d) ≤ length (Columns d))%nat →
  match err with
  | None => root = Some (DerivedOp d') ∧ 0 ≤ k < Z.of_nat (length (Columns d'))
  | Some _ => root = None ∧ k = 0
  end.
Proof.
  intros Hcall Hle.
  assert (Hpos : ∀ col i,
    0 ≤ snd (addToIntSlice (ColumnsOffset d) i)
      < Z.of_nat (length (Columns (recorded d col i)))).
  { intros col i.
    destruct (addToIntSlice_spec (ColumnsOffset d) i) as [_ (n & -> & Hn)].
    apply lookup_lt_Some in Hn.
    pose proof (addToIntSlice_length (ColumnsOffset d) i).
    unfold recorded. simpl. rewrite length_app. simpl. lia. }
  destruct (AddColumn_cases _ _ _ _ _ _ _ _ _ Hcall)
    as [(_ & _ & -> & -> & ->)
       |[(col & n & c & _ & Hn & _ & _ & -> & -> & -> & ->)
        |[(col & i & e & _ & _ & _ & _ & -> & -> & ->)
         |[(col & i & _ & _ & _ & _ & -> & -> & -> & ->)
          |(col & src & src' & newSrc & o & e & _ & _ & _ & _ & _ & Hres)]]]].
  - done.
  - split; [done|]. apply lookup_lt_Some in Hn. lia.
  - done.
  - split; [done|]. apply Hpos.
  - destruct e as [e'|].
    + by destruct Hres as (_ & -> & -> & ->).
    + destruct Hres as (-> & -> & -> & ->). split; [done|]. apply (Hpos col).
Qed.

Lemma AddColumn_result_shape_witness :
  Some (DerivedOp (fixtures.demanding (fixtures.derivedOver fixtures.selectA)
                     [fixtures.col "dt" "a"] [0]))
    = Some (DerivedOp (fixtures.demanding (fixtures.derivedOver fixtures.selectA)
                         [fixtures.col "dt" "a"] [0])) ∧
  0 ≤ 0 < Z.of_nat (length (Columns (fixtures.demanding
                                       (fixtures.derivedOver fixtures.selectA)
                                       [fixtures.col "dt" "a"] [0]))).
Proof.
  exact (@AddColumn_result_shape fixtures.accepting fixtures.oneTable
           (fixtures.derivedOver fixtures.selectA) _
           (aeWrap (ColNameExpr (fixtures.col "dt" "a"))) true false
           _ 0 None eq_refl (le_n 0)).
Defined.

(** X10: a failing [AddColumn] leaves the node as it was, except when the
    failure is that of the source asked for a column left to the star: by
    then the column is in [Columns] and -1 in [ColumnsOffset]. *)
Theorem AddColumn_failure_state `{Collaborators} ctx (d d' : Derived)
    (expr : AliasedExpr) (reuse addToGroupBy : bool) (root : option Operator)
    (k : Z) (e : Error) :
  AddColumn ctx d expr reuse addToGroupBy = Returns (d', (root, k, Some e)) →
  d' = d ∨
  ∃ col src',
    ae_Expr expr = ColNameExpr col ∧ findOutputColumn d col = (-1, None) ∧
    d' = withSource (recorded d col (-1)) (Some src') ∧
    Columns d' = Columns d ++ [col] ∧ (-1) ∈ ColumnsOffset d'.
Proof.
  intros Hcall.
  destruct (AddColumn_cases _ _ _ _ _ _ _ _ _ Hcall)
    as [(_ & -> & _)
       |[(col & n & c & _ & _ & _ & _ & _ & _ & _ & ?)
        |[(col & i & e' & _ & _ & _ & -> & _)
         |[(col & i & _ & _ & _ & _ & _ & _ & _ & ?)
          |(col & src & src' & newSrc & o & e' & He & _ & Hfind & _ & _ & Hres)]]]];
    try done; try by left.
  destruct e' as [e'|]; [|by destruct Hres as (_ & _ & _ & ?)].
  destruct Hres as (-> & _). right. exists col, src'. split_and!; try done.
  unfold recorded. simpl.
  destruct (addToIntSlice_spec (ColumnsOffset d) (-1)) as [_ (n & _ & Hn)].
  by eapply list_elem_of_lookup_2.
Qed.

Lemma AddColumn_failure_state_witness :
  let d := fixtures.derivedOver fixtures.selectStar in
  let y := fixtures.col "dt" "y" in
  AddColumn (H := fixtures.refusing) fixtures.oneTable d
    (aeWrap (ColNameExpr y)) true false =
    Returns (fixtures.demanding d [y] [-1], (None, 0, Some (Foreign 2))) ∧
  (fixtures.demanding d [y] [-1] = d ∨
   ∃ col src',
     ae_Expr (aeWrap (ColNameExpr y)) = ColNameExpr col ∧
     findOutputColumn d col = (-1, None) ∧
     fixtures.demanding d [y] [-1] = withSource (recorded d col (-1)) (Some src') ∧
     Columns (fixtures.demanding d [y] [-1]) = Columns d ++ [col] ∧
     (-1) ∈ ColumnsOffset (fixtures.demanding d [y] [-1])).
Proof.
  cbv zeta. split; [reflexivity|].
  exact (@AddColumn_failure_state fixtures.refusing fixtures.oneTable
           (fixtures.derivedOver fixtures.selectStar) _
           (aeWrap (ColNameExpr (fixtures.col "dt" "y"))) true false
           None 0 (Foreign 2) eq_refl).
Defined.

(** X11: [AddColumn] replaces [Source] only for a new column that the select
    list leaves to a [StarExpr]; a column served already, or found among the
    select items, or not resolved at all, leaves [Source] alone. *)
Theorem AddColumn_touches_Source_only_for_star `{Collaborators} ctx (d d' : Derived)
    (expr : AliasedExpr) (reuse addToGroupBy : bool)
    (res : option Operator * Z * option Error) :
  AddColumn ctx d expr reuse addToGroupBy = Returns (d', res) →
  Source d' = Source d ∨
  ∃ col,
    ae_Expr expr = ColNameExpr col ∧ unseen ctx (Columns d) col ∧
    findOutputColumn d col = (-1, None) ∧
    existsb isStar (GetFirstSelect (Query d)) = true.
Proof.
  destruct res as [[root k] err]. intros Hcall.
  destruct (AddColumn_cases _ _ _ _ _ _ _ _ _ Hcall)
    as [(_ & -> & _)
       |[(col & n & c & _ & _ & _ & _ & -> & _)
        |[(col & i & e' & _ & _ & _ & -> & _)
         |[(col & i & _ & _ & _ & _ & -> & _)
          |(col & src & src' & newSrc & o & e' & He & Hun & Hfind & _)]]]];
    try by left.
  right. exists col. split_and!; try done.
  destruct (findOutputColumn_cases d col)
    as [[_ Hres]|(n & item & _ & _ & [[_ Hres]|(exp & _ & _ & Hres)])];
    rewrite Hres in Hfind.
  - by destruct (existsb isStar _).
  - injection Hfind as Hn. lia.
  - done.
Qed.

Lemma AddColumn_touches_Source_only_for_star_witness :
  let d := fixtures.derivedOver fixtures.selectStarTotal in
  let total := fixtures.col "dt" "total" in
  Source (fixtures.demanding d [total] [1]) = Source d ∨
  ∃ col,
    ae_Expr (aeWrap (ColNameExpr total)) = ColNameExpr col ∧
    unseen fixtures.oneTable (Columns d) col ∧
    findOutputColumn d col = (-1, None) ∧
    existsb isStar (GetFirstSelect (Query d)) = true.
Proof.
  exact (@AddColumn_touches_Source_only_for_star fixtures.refusing fixtures.oneTable
           (fixtures.derivedOver fixtures.selectStarTotal) _
           (aeWrap (ColNameExpr (fixtures.col "dt" "total"))) true false
           _ eq_refl).
Defined.

(** X12: for a new column that the select list leaves to a [StarExpr],
    [AddColumn] asks the source for the column by its bare name, without
    qualifier or alias, with reuse allowed and the caller's [addToGroupBy];
    when the source accepts, its result becomes [Source] and the offset the
    source reports is dropped: the node answers the slot of -1 in
    [ColumnsOffset]. *)
Theorem AddColumn_forwards_star_column `{Collaborators} ctx (d : Derived)
    (expr : AliasedExpr) (col : ColName) (reuse addToGroupBy : bool)
    (src src' : Operator) (newSrc : option Operator) (o : Z) :
  ae_Expr expr = ColNameExpr col →
  unseen ctx (Columns d) col →
  findOutputColumn d col = (-1, None) →
  Source d = Some src →
  Source_AddColumn ctx src
    {| ae_Expr := ColNameExpr {| Qualifier := ""; Name := Name col |};
       As := NewIdentifierCI "" |} true addToGroupBy
    = (src', (newSrc, o, None)) →
  AddColumn ctx d expr reuse addToGroupBy =
  Returns (withSource (recorded d col (-1)) newSrc,
           (Some (DerivedOp (withSource (recorded d col (-1)) newSrc)),
            snd (addToIntSlice (ColumnsOffset d) (-1)), None)).
Proof.
  intros He Hun Hfind Hsrc Hcall. unfold AddColumn, canReuseColumn. rewrite He.
  rewrite (canReuseColumn_loop_none ctx (λ c, ColNameExpr c)) by exact Hun.
  rewrite Hfind. unfold recorded.
  destruct (addToIntSlice (ColumnsOffset d) (-1)) as [offs pos]. simpl.
  rewrite Hsrc. unfold aeWrap, NewColName, IdentString.
  destruct (Name col) as [s]. simpl in *. by rewrite Hcall.
Qed.

Lemma AddColumn_forwards_star_column_witness :
  let d := fixtures.derivedOver fixtures.selectStar in
  let d1 := fixtures.demanding d [fixtures.col "dt" "y"] [-1] in
  AddColumn (H := fixtures.accepting) fixtures.oneTable d
    (aeWrap (ColNameExpr (fixtures.col "dt" "y"))) false false =
    Returns (d1, (Some (DerivedOp d1), 0, None)) ∧
  AddColumn (H := fixtures.accepting) fixtures.oneTable d1
    (aeWrap (ColNameExpr (fixtures.col "dt" "z"))) false false =
    Returns (fixtures.demanding d [fixtures.col "dt" "y"; fixtures.col "dt" "z"] [-1],
             (Some (DerivedOp (fixtures.demanding d
                                 [fixtures.col "dt" "y"; fixtures.col "dt" "z"] [-1])),
              0, None)).
Proof.
  cbv zeta. split.
  - exact (@AddColumn_forwards_star_column fixtures.accepting fixtures.oneTable
             (fixtures.derivedOver fixtures.selectStar)
             (aeWrap (ColNameExpr (fixtures.col "dt" "y"))) (fixtures.col "dt" "y")
             false false (OtherOp 0) (OtherOp 0) (Some (OtherOp 0)) 0
             eq_refl (Forall_nil_2 _) eq_refl eq_refl eq_refl).
  - refine (@AddColumn_forwards_star_column fixtures.accepting fixtures.oneTable
              (fixtures.demanding (fixtures.derivedOver fixtures.selectStar)
                 [fixtures.col "dt" "y"] [-1])
              (aeWrap (ColNameExpr (fixtures.col "dt" "z"))) (fixtures.col "dt" "z")
              false false (OtherOp 0) (OtherOp 0) (Some (OtherOp 0)) 0
              eq_refl _ eq_refl eq_refl eq_refl).
    repeat constructor.
Defined.

Lemma distinctColumns_snoc ctx (columns : list ColName) (col : ColName) :
  distinctColumns ctx columns → unseen ctx columns col →
  distinctColumns ctx (columns ++ [col]).
Proof.
  induction columns as [|c rest IH]; simpl.
  - intros _ _. split; [done|constructor].
  - intros [Hrest Hc] [Hcol Hun]%Forall_cons. split; [by apply IH|].
    apply Forall_app. split; [done|]. by constructor.
Qed.

(** X13: [AddColumn] keeps [Columns] free of repetitions under the context's
    test: if no column of the node was equal to one before it, the same holds
    after the call. *)
Theorem AddColumn_keeps_Columns_distinct `{Collaborators} ctx (d d' : Derived)
    (expr : AliasedExpr) (reuse addToGroupBy : bool)
    (res : option Operator * Z * option Error) :
  AddColumn ctx d expr reuse addToGroupBy = Returns (d', res) →
  distinctColumns ctx (Columns d) →
  distinctColumns ctx (Columns d').
Proof.
  destruct res as [[root k] err]. intros Hcall Hd.
  destruct (AddColumn_cases _ _ _ _ _ _ _ _ _ Hcall)
    as [(_ & -> & _)
       |[(col & n & c & _ & _ & _ & _ & -> & _)
        |[(col & i & e' & _ & _ & _ & -> & _)
         |[(col & i & _ & Hun & _ & _ & -> & _)
          |(col & src & src' & newSrc & o & e' & _ & Hun & _ & _ & _ & Hres)]]]];
    try done.
  - by apply distinctColumns_snoc.
  - destruct e' as [e'|]; destruct Hres as (-> & _); by apply distinctColumns_snoc.
Qed.

Lemma AddColumn_keeps_Columns_distinct_witness :
  distinctColumns fixtures.oneTable
    (Columns (fixtures.demanding (fixtures.derivedOver fixtures.selectA)
                [fixtures.col "dt" "a"; fixtures.col "" "a"] [0])).
Proof.
  refine (@AddColumn_keeps_Columns_distinct fixtures.accepting fixtures.oneTable
            (fixtures.demanding (fixtures.derivedOver fixtures.selectA)
               [fixtures.col "dt" "a"] [0])
            _ (aeWrap (ColNameExpr (fixtures.col "" "a"))) true false _ eq_refl _).
  simpl. split; [done|constructor].
Defined.

Lemma AddColumn_again_witness :
  let d := fixtures.derivedOver fixtures.selectAB in
  let b := fixtures.col "dt" "b" in
  ∃ k',
    AddColumn (H := fixtures.accepting) fixtures.oneTable
      (fixtures.demanding d [b] [1]) (aeWrap (ColNameExpr b)) true false =
      Returns (fixtures.demanding d [b] [1],
               (Some (DerivedOp (fixtures.demanding d [b] [1])), k', None)) ∧
    (Columns (fixtures.demanding d [b] [1]) = Columns d ∧ k' = 0 ∨
     ∃ i, Columns (fixtures.demanding d [b] [1]) = Columns d ++ [b] ∧
          k' = Z.of_nat (length (Columns d)) ∧
          findOutputColumn d b = (i, None) ∧
          0 = snd (addToIntSlice (ColumnsOffset d) i)).
Proof.
  cbv zeta.
  exact (@AddColumn_again fixtures.accepting fixtures.oneTable
           (fixtures.derivedOver fixtures.selectAB) _
           (aeWrap (ColNameExpr (fixtures.col "dt" "b")))
           (aeWrap (ColNameExpr (fixtures.col "dt" "b")))
           (fixtures.col "dt" "b") (fixtures.col "dt" "b")
           true false true false _ 0 eq_refl eq_refl (λ _, eq_refl) eq_refl eq_refl).
Defined.

(** * What no sequence of calls does *)

Section steps.
Context `{Collaborators}.

Lemma AddPredicate_withSource ctx (d d' : Derived) expr res :
  AddPredicate ctx d expr = Returns (d', res) → ∃ src, d' = withSource d src.
Proof.
  assert (Hsame : d = withSource d (Source d)) by by destruct d.
  unfold AddPredicate. destruct (isUnion (Source d)).
  - destruct (Source d) as [src|]; [|done].
    destruct (Source_AddPredicate _ _ _) as [newSrc err].
    intros [= <- <-]. by eexists.
  - destruct (TableInfoForExpr _ _) as [tableInfo [e|]].
    + destruct (is_ErrNotSingleTable e); intros [= <- <-]; by eexists.
    + destruct (negb _); [intros [= <- <-]; by eexists|].
      destruct (Source d) as [src|]; [|done].
      destruct (Source_AddPredicate _ _ _) as [newSrc [e|]];
        intros [= <- <-]; by eexists.
Qed.

(** What one call can do to the fields other than [Source] and [QP]. *)
Lemma step_fields (d d' : Derived) :
  step d d' →
  Query d' = Query d ∧ Alias d' = Alias d ∧ TableId d' = TableId d ∧
  ColumnAliases d' = ColumnAliases d ∧
  ((Columns d' = Columns d ∧ ColumnsOffset d' = ColumnsOffset d) ∨
   ∃ col i, findOutputColumn d col = (i, None) ∧
            Columns d' = Columns d ++ [col] ∧
            ColumnsOffset d' = fst (addToIntSlice (ColumnsOffset d) i)).
Proof.
  destruct 1 as [ctx d expr r g d' [[root k] err] Hcall
                |ctx d expr d' res Hcall
                |d inputs c Hcall
                |d ops d' Hcall
                |ctx d d' res Hcall
                |d qp
                |d].
  - destruct (AddColumn_cases _ _ _ _ _ _ _ _ _ Hcall)
      as [(_ & -> & _)
         |[(col & n & c & _ & _ & _ & _ & -> & _)
          |[(col & i & e' & _ & _ & _ & -> & _)
           |[(col & i & _ & _ & Hfind & _ & -> & _)
            |(col & src & src' & newSrc & o & e' & _ & _ & Hfind & _ & _ & Hres)]]]];
      try (split_and!; try done; by left).
    + split_and!; try done. right. by exists col, i.
    + destruct e' as [e'|]; destruct Hres as (-> & _);
        (split_and!; try done; right; by exists col, (-1)).
  - apply AddPredicate_withSource in Hcall as [src ->].
    split_and!; try done. by left.
  - unfold Clone in Hcall. destruct inputs; [done|]. injection Hcall as <-.
    simpl. rewrite CloneColumns_id. split_and!; try done. by left.
  - unfold SetInputs in Hcall. destruct ops; [done|]. injection Hcall as <-.
    split_and!; try done. by left.
  - unfold getQP in Hcall.
    destruct (QP d); [injection Hcall as <- _; split_and!; try done; by left|].
    destruct (Query d) eqn:Hq; [|done].
    destruct (CreateQPFromSelect _ _) as [qp [e|]];
      injection Hcall as <- _; simpl; rewrite ?Hq;
      (split_and!; try done; by left).
  - split_and!; try done. by left.
  - unfold GetOrdering. destruct (QP d); (split_and!; try done; by left).
Qed.

End steps.

(** X15: no sequence of method calls changes the node's [Query], [Alias],
    [TableId] or the contents of [ColumnAliases]. *)
Theorem steps_keep_identity `{Collaborators} (d d' : Derived) :
  steps d d' →
  Query d' = Query d ∧ Alias d' = Alias d ∧ TableId d' = TableId d ∧
  ColumnAliases d' = ColumnAliases d.
Proof.
  induction 1 as [d|d d1 d' Hstep _ IH]; [done|].
  destruct (step_fields _ _ Hstep) as (Hq & Ha & Ht & Hc & _).
  destruct IH as (-> & -> & -> & ->). done.
Qed.

Lemma steps_keep_identity_witness :
  Query (fixtures.demanding (fixtures.derivedOver fixtures.selectA)
           [fixtures.col "dt" "a"] [0]) = fixtures.selectA.
Proof.
  refine (proj1 (@steps_keep_identity fixtures.accepting
                   (fixtures.derivedOver fixtures.selectA) _ _)).
  eapply rtc_l; [|apply rtc_refl].
  eapply (step_AddColumn fixtures.oneTable (fixtures.derivedOver fixtures.selectA)
            (aeWrap (ColNameExpr (fixtures.col "dt" "a"))) true false).
  reflexivity.
Defined.

(** X16: no sequence of method calls removes or moves what the node has
    recorded: [Columns] and [ColumnsOffset] only ever grow at the end, and a
    [ColumnsOffset] without repeated value stays so. *)
Theorem steps_only_extend `{Collaborators} (d d' : Derived) :
  steps d d' →
  Columns d `prefix_of` Columns d' ∧
  ColumnsOffset d `prefix_of` ColumnsOffset d' ∧
  (NoDup (ColumnsOffset d) → NoDup (ColumnsOffset d')).
Proof.
  induction 1 as [d|d d1 d' Hstep _ (IHc & IHo & IHn)]; [done|].
  destruct (step_fields _ _ Hstep)
    as (_ & _ & _ & _ & [[Hc Ho]|(col & i & _ & Hc & Ho)]).
  - rewrite Hc, Ho in *. done.
  - split_and!.
    + etrans; [|exact IHc]. rewrite Hc. by apply prefix_app_r.
    + etrans; [|exact IHo]. rewrite Ho.
      destruct (addToIntSlice_spec (ColumnsOffset d) i) as [[[_ ->]|(_ & -> & _)] _];
        [done|by apply prefix_app_r].
    + intros Hnd. apply IHn. rewrite Ho. by apply addToIntSlice_NoDup.
Qed.

Lemma steps_only_extend_witness :
  let d0 := fixtures.derivedOver fixtures.selectA in
  let d2 := fixtures.demanding d0 [fixtures.col "dt" "a"; fixtures.col "" "a"] [0] in
  Columns d0 `prefix_of` Columns d2 ∧
  ColumnsOffset d0 `prefix_of` ColumnsOffset d2 ∧
  (NoDup (ColumnsOffset d0) → NoDup (ColumnsOffset d2)).
Proof.
  cbv zeta.
  refine (@steps_only_extend fixtures.accepting
            (fixtures.derivedOver fixtures.selectA) _ _).
  eapply rtc_l.
  { eapply (step_AddColumn fixtures.oneTable (fixtures.derivedOver fixtures.selectA)
              (aeWrap (ColNameExpr (fixtures.col "dt" "a"))) true false).
    reflexivity. }
  eapply rtc_l; [|apply rtc_refl].
  eapply (step_AddColumn fixtures.oneTable _
            (aeWrap (ColNameExpr (fixtures.col "" "a"))) true false).
  reflexivity.
Defined.

(** X17: if every recorded offset is -1 or the index of a select item, with
    -1 recorded only over a select list that has a [StarExpr], then the same
    holds after any sequence of method calls. *)
Theorem steps_keep_offsets_resolved `{Collaborators} (d d' : Derived) :
  steps d d' → offsetsResolved d → offsetsResolved d'.
Proof.
  induction 1 as [d|d d1 d' Hstep _ IH]; [done|].
  intros Hres. apply IH. unfold offsetsResolved in *.
  destruct (step_fields _ _ Hstep)
    as (Hq & _ & _ & _ & [[_ Ho]|(col & i & Hfind & _ & Ho)]); rewrite Hq, Ho.
  - done.
  - destruct (addToIntSlice_spec (ColumnsOffset d) i) as [[[_ ->]|(_ & -> & _)] _];
      [done|].
    apply Forall_app. split; [done|]. constructor; [|constructor].
    destruct (findOutputColumn_cases d col)
      as [[_ Hr]|(n & item & Hn & _ & [[_ Hr]|(exp & _ & _ & Hr)])];
      rewrite Hr in Hfind.
    + destruct (existsb isStar (GetFirstSelect (Query d))) eqn:Hstar;
        rewrite ?Hstar in Hfind; [|done].
      injection Hfind as <-. by left.
    + injection Hfind as <-. right. apply lookup_lt_Some in Hn. lia.
    + done.
Qed.

Lemma steps_keep_offsets_resolved_witness :
  offsetsResolved (fixtures.demanding (fixtures.derivedOver fixtures.selectStarTotal)
                     [fixtures.col "dt" "y"] [-1]).
Proof.
  refine (@steps_keep_offsets_resolved fixtures.accepting
            (fixtures.derivedOver fixtures.selectStarTotal) _ _ _).
  - eapply rtc_l; [|apply rtc_refl].
    eapply (step_AddColumn fixtures.oneTable
              (fixtures.derivedOver fixtures.selectStarTotal)
              (aeWrap (ColNameExpr (fixtures.col "dt" "y"))) true false).
    reflexivity.
  - constructor.
Defined.

(** * Further properties of AddPredicate *)

(** X18: [AddPredicate] never returns neither operator nor error, and writes
    no field but [Source].  Without error the operator is the node itself or
    a [Filter] holding exactly the given predicate directly over the node, in
    which case the node is as before; with an error there is no operator,
    except over a union, where the node is returned along with the error. *)
Theorem AddPredicate_result_shape `{Collaborators} ctx (d d' : Derived)
    (expr : Expr) (root : option Operator) (err : option Error) :
  AddPredicate ctx d expr = Returns (d', (root, err)) →
  (∃ src, d' = withSource d src) ∧
  match err with
  | None =>
      root = Some (DerivedOp d') ∨
      (d' = d ∧ root = Some (FilterOp (DerivedOp d) [expr]))
  | Some _ =>
      root = None ∨ (isUnion (Source d) = true ∧ root = Some (DerivedOp d'))
  end.
Proof.
  intros Hcall. split; [by eapply AddPredicate_withSource|].
  unfold AddPredicate in Hcall. destruct (isUnion (Source d)) eqn:HU.
  - destruct (Source d) as [src|]; [|done].
    destruct (Source_AddPredicate _ _ _) as [newSrc e].
    injection Hcall as <- <- <-. destruct e; [by right|by left].
  - destruct (TableInfoForExpr _ _) as [tableInfo [e|]].
    + destruct (is_ErrNotSingleTable e); injection Hcall as <- <- <-;
        [by right|by left].
    + destruct (negb _); [injection Hcall as <- <- <-; by right|].
      destruct (Source d) as [src|]; [|done].
      destruct (Source_AddPredicate _ _ _) as [newSrc [e|]];
        injection Hcall as <- <- <-; by left.
Qed.

Lemma AddPredicate_result_shape_witness :
  let d := fixtures.derivedOver fixtures.selectAB in
  (∃ src, withSource d None = withSource d src) ∧
  (@None Operator = None ∨ (isUnion (Source d) = true ∧
                            None = Some (DerivedOp (withSource d None)))).
Proof.
  exact (@AddPredicate_result_shape fixtures.refusing fixtures.oneTable
           (fixtures.derivedOver fixtures.selectAB) _
           (fixtures.gt (ColNameExpr (fixtures.col "dt" "a")) (fixtures.lit "1"))
           None (Some (Foreign 1)) eq_refl).
Defined.

(** X19: over a union the whole decision is the union's: the predicate goes
    to [Source.AddPredicate] as given, not rewritten, whatever tables it
    names and whatever aggregates it holds; the result becomes [Source] and
    the node itself is returned together with the union's error, if any. *)
Theorem AddPredicate_over_union `{Collaborators} ctx (d : Derived) (expr : Expr)
    (sources : list Operator) :
  Source d = Some (UnionOp sources) →
  AddPredicate ctx d expr =
  Returns (withSource d (fst (Source_AddPredicate ctx (UnionOp sources) expr)),
           (Some (DerivedOp
                    (withSource d (fst (Source_AddPredicate ctx (UnionOp sources) expr)))),
            snd (Source_AddPredicate ctx (UnionOp sources) expr))).
Proof.
  intros Hsrc. unfold AddPredicate. rewrite Hsrc. simpl.
  by destruct (Source_AddPredicate _ _ _).
Qed.

Lemma AddPredicate_over_union_witness :
  let d := fixtures.overUnion (fixtures.derivedOver fixtures.selectAB) in
  let e := fixtures.gt (fixtures.count (ColNameExpr (fixtures.col "other" "x")))
             (fixtures.lit "1") in
  AddPredicate (H := fixtures.refusing) fixtures.manyTables d e =
  Returns (withSource d None, (Some (DerivedOp (withSource d None)), Some (Foreign 1))).
Proof.
  exact (@AddPredicate_over_union fixtures.refusing fixtures.manyTables
           (fixtures.overUnion (fixtures.derivedOver fixtures.selectAB))
           (fixtures.gt (fixtures.count (ColNameExpr (fixtures.col "other" "x")))
              (fixtures.lit "1"))
           [OtherOp 1; OtherOp 2] eq_refl).
Defined.

(** X20: when the attribution of the predicate to a table fails with an
    error other than [ErrNotSingleTable], [AddPredicate] passes that error
    on, returns no operator and leaves the node as it was: no filter is put
    above it. *)
Theorem AddPredicate_attribution_error `{Collaborators} ctx (d : Derived)
    (expr : Expr) tableInfo (e : Error) :
  isUnion (Source d) = false →
  TableInfoForExpr (SemTable ctx) expr = (tableInfo, Some e) →
  is_ErrNotSingleTable e = false →
  AddPredicate ctx d expr = Returns (d, (None, Some e)).
Proof. intros HU HT He. unfold AddPredicate. by rewrite HU, HT, He. Qed.

Lemma AddPredicate_attribution_error_witness :
  AddPredicate (H := fixtures.accepting) fixtures.brokenTables
    (fixtures.derivedOver fixtures.selectAB) (ColNameExpr (fixtures.col "dt" "a"))
  = Returns (fixtures.derivedOver fixtures.selectAB, (None, Some (Foreign 9))).
Proof.
  exact (@AddPredicate_attribution_error fixtures.accepting fixtures.brokenTables
           (fixtures.derivedOver fixtures.selectAB)
           (ColNameExpr (fixtures.col "dt" "a")) None (Foreign 9)
           eq_refl eq_refl eq_refl).
Defined.

(** X21: whether a predicate can be pushed down is decided node by node: a
    bare column can; a node can exactly when it is not an aggregate other
    than [Max] and [Min] and each of its sub-nodes can, so that an aggregate
    inside [Max] or [Min] still forbids it. *)
Theorem canBePushedDownIntoDerived_by_node :
  (∀ c, canBePushedDownIntoDerived (ColNameExpr c) = true) ∧
  (∀ ty children,
     canBePushedDownIntoDerived (Node ty children) =
     match ty with OtherAggrFunc _ => false | _ => true end
     && forallb canBePushedDownIntoDerived children).
Proof.
  split; [done|]. intros ty children.
  rewrite canBePushedDownIntoDerived_spec. simpl.
  rewrite negb_orb. f_equal; [by destruct ty|].
  induction children as [|c rest IH]; [done|]. simpl.
  by rewrite negb_orb, IH, canBePushedDownIntoDerived_spec.
Qed.

(** * Further properties of the query-projection cache, inputs and Clone *)

(** X22: [getQP] stores in [QP] exactly the projection it returns and writes
    no other field; when [CreateQPFromSelect] fails it returns no projection
    and leaves the node, whose [QP] is nil, as it was. *)
Theorem getQP_stores_what_it_returns `{Collaborators} ctx (d d' : Derived)
    (res : option QueryProjection) (err : option Error) :
  getQP ctx d = Returns (d', (res, err)) →
  match err with
  | None => d' = withQP d res ∧ QP d' = res
  | Some _ => d' = d ∧ res = None ∧ QP d = None
  end.
Proof.
  unfold getQP. destruct (QP d) as [qp|] eqn:Hqp.
  - intros [= <- <- <-]. split; [|done]. destruct d. simpl in *. by rewrite Hqp.
  - destruct (Query d); [|done].
    destruct (CreateQPFromSelect _ _) as [qp [e|]]; by intros [= <- <- <-].
Qed.

Lemma getQP_stores_what_it_returns_witness :
  fixtures.derivedOver fixtures.selectA = fixtures.derivedOver fixtures.selectA ∧
  @None QueryProjection = None ∧
  QP (fixtures.derivedOver fixtures.selectA) = None.
Proof.
  exact (@getQP_stores_what_it_returns fixtures.refusing fixtures.oneTable
           (fixtures.derivedOver fixtures.selectA) _ None (Some (Foreign 3)) eq_refl).
Defined.

(** X23: once [getQP] has returned a projection, or [setQP] has stored one,
    every later [getQP] returns that projection and leaves the node as it
    is, whatever the context and whatever [CreateQPFromSelect] would answer:
    the projection is not computed a second time. *)
Theorem getQP_memoizes `{Collaborators} ctx (d d' : Derived) (qp : QueryProjection) :
  getQP ctx d = Returns (d', (Some qp, None)) →
  ∀ (others : Collaborators) ctx',
    getQP (H := others) ctx' d' = Returns (d', (Some qp, None)) ∧
    getQP (H := others) ctx' (setQP d (Some qp))
      = Returns (setQP d (Some qp), (Some qp, None)).
Proof.
  intros Hcall others ctx'. split; [|done].
  assert (Hqp : QP d' = Some qp).
  { unfold getQP in Hcall. destruct (QP d) as [qp0|] eqn:Hqp0.
    - injection Hcall as <- <-. done.
    - destruct (Query d); [|done].
      destruct (CreateQPFromSelect _ _) as [qp1 [e|]]; [done|].
      by injection Hcall as <- <-. }
  unfold getQP. by rewrite Hqp.
Qed.

Lemma getQP_memoizes_witness :
  let d := fixtures.derivedOver fixtures.selectA in
  let qp := {| SelectExprs := GetFirstSelect fixtures.selectA; OrderExprs := [] |} in
  getQP (H := fixtures.refusing) fixtures.manyTables (withQP d (Some qp))
    = Returns (withQP d (Some qp), (Some qp, None)).
Proof.
  exact (proj1 (@getQP_memoizes fixtures.accepting fixtures.oneTable
                  (fixtures.derivedOver fixtures.selectA) _ _ eq_refl
                  fixtures.refusing fixtures.manyTables)).
Defined.

(** X24: after a [getQP] that returned a projection, [GetOrdering] succeeds
    and returns that projection's [OrderExprs]. *)
Theorem GetOrdering_after_getQP `{Collaborators} ctx (d d' : Derived)
    (qp : QueryProjection) :
  getQP ctx d = Returns (d', (Some qp, None)) →
  GetOrdering d' = (d', (Some (OrderExprs qp), None)).
Proof.
  intros Hcall. unfold getQP in Hcall. unfold GetOrdering.
  destruct (QP d) as [qp0|] eqn:Hqp0.
  - injection Hcall as <- ->. by rewrite Hqp0.
  - destruct (Query d); [|done].
    destruct (CreateQPFromSelect _ _) as [qp1 [e|]]; [done|].
    injection Hcall as <- Hq. simpl in *. by rewrite Hq.
Qed.

Lemma GetOrdering_after_getQP_witness :
  let d := fixtures.derivedOver fixtures.selectA in
  let qp := {| SelectExprs := GetFirstSelect fixtures.selectA; OrderExprs := [] |} in
  GetOrdering (withQP d (Some qp)) = (withQP d (Some qp), (Some [], None)).
Proof.
  exact (@GetOrdering_after_getQP fixtures.accepting fixtures.oneTable
           (fixtures.derivedOver fixtures.selectA) _ _ eq_refl).
Defined.

(** X25: [SetInputs] installs the first operator it is given as [Source],
    ignores the others and writes no other field, so that [Inputs] after it
    lists exactly that operator and [SetInputs] of a node's own [Inputs]
    changes nothing; given no operator at all it panics. *)
Theorem SetInputs_Inputs :
  (∀ d : Derived, SetInputs d (Inputs d) = Returns d) ∧
  (∀ (d : Derived) o rest,
     SetInputs d (o :: rest) = Returns (withSource d o) ∧
     Inputs (withSource d o) = [o]) ∧
  (∀ d : Derived, ∃ reason, SetInputs d [] = Panics reason).
Proof.
  split_and!.
  - intros d. by destruct d.
  - done.
  - intros d. by eexists.
Qed.

(** X26: cloning a node over its own [Inputs] gives the node again, but for
    a nil [QP]; [Clone] reads only the first of the operators it is given, and
    panics when given none. *)
Theorem Clone_over_own_inputs :
  (∀ d : Derived, Clone d (Inputs d) = Returns (withQP d None)) ∧
  (∀ (d : Derived) in0 rest, Clone d (in0 :: rest) = Clone d [in0]) ∧
  (∀ d : Derived, ∃ reason, Clone d [] = Panics reason).
Proof.
  split_and!.
  - intros d. unfold Clone, Inputs, slices_Clone. rewrite CloneColumns_id.
    by destruct d.
  - done.
  - intros d. by eexists.
Qed.
